(** * cameleon / u3v: register map, enumeration and control handle

  A shallow embedding of the byte-level register codec
  ([register_map.cpp]), the camera enumeration and error conversion
  ([u3v.cpp]) and the control / stream parameter code
  ([control_handle.cpp]) of the U3V host library, together with the
  properties the specification states about them.

  Conventions.  A C++ integer of a fixed width is a [Z] together with the
  wrap-around of its type written out ([static_cast]).  A byte buffer
  ([uint8_t *]) is a [list Z]; writing [buf[i] = v] is stdpp's list
  insertion, reading [buf[i]] is a lookup.  Code that throws returns a
  sum whose left injection carries the exception. *)

From Stdlib Require Import ZArith Lia List String Bool.
From Equations Require Import Equations.
From stdpp Require Import base option list gmap.

Open Scope Z_scope.

(** ** Exceptions *)

(** The exception classes the sources throw.  [ControlError] is declared in
  [register_map.cpp] as a [std::runtime_error] with inherited
  constructors: it carries its [what()] text only. *)
Inductive exception : Type :=
| runtime_error (what : string)
| ControlError (what : string)
| StreamError (what : string).

Definition what (e : exception) : string :=
match e with
| runtime_error w | ControlError w | StreamError w => w
end.

(** A computation that either throws or returns a value. *)
Definition result (A : Type) : Type := (exception + A)%type.
Definition throw {A : Type} (e : exception) : result A := inl e.
Definition ret {A : Type} (a : A) : result A := inr a.

(** ** Fixed-width integer types *)

Module IntegerTypes.

(** An integral type: its [sizeof] in bytes and its signedness. *)
Record IntType : Type := MkIntType { sizeof : nat; is_signed : bool }.

Definition uint8_t : IntType := MkIntType 1 false.
Definition uint16_t : IntType := MkIntType 2 false.
Definition uint32_t : IntType := MkIntType 4 false.
Definition uint64_t : IntType := MkIntType 8 false.
Definition int8_t : IntType := MkIntType 1 true.
Definition int16_t : IntType := MkIntType 2 true.
Definition int32_t : IntType := MkIntType 4 true.
Definition int64_t : IntType := MkIntType 8 true.
(** [int] and [size_t] of the 64-bit targets the library builds for. *)
Definition int : IntType := int32_t.
Definition size_t : IntType := uint64_t.

Definition bits (T : IntType) : Z := 8 * Z.of_nat (sizeof T).

(** Conversion of a mathematical integer to [T]: reduction modulo
    [2^bits], into the two's complement range when [T] is signed. *)
Definition static_cast (T : IntType) (z : Z) : Z :=
  if is_signed T
  then (z + 2 ^ (bits T - 1)) mod 2 ^ bits T - 2 ^ (bits T - 1)
  else z mod 2 ^ bits T.

(** The values of [T]. *)
Definition representable (T : IntType) (z : Z) : Prop :=
  if is_signed T
  then - 2 ^ (bits T - 1) <= z < 2 ^ (bits T - 1)
  else 0 <= z < 2 ^ bits T.

(** Integral promotion: a type narrower than [int] is computed with as
    [int]. *)
Definition promote (T : IntType) : IntType :=
  if (sizeof T <? sizeof int)%nat then int else T.

(** The numeric register widths: 8, 16, 32 and 64 bits. *)
Definition register_width (T : IntType) : Prop :=
  sizeof T = 1%nat \/ sizeof T = 2%nat \/ sizeof T = 4%nat \/ sizeof T = 8%nat.

End IntegerTypes.
Export IntegerTypes.

(** ** register_map.cpp *)

Module RegisterMap.

(** A byte buffer, addressed from its first element. *)
Abbreviation buffer := (list Z).

(** [bytes[i]]; reading past the end of the array is undefined in C++ and
    reads 0 here. *)
Definition load (bytes : buffer) (i : nat) : Z := nth i bytes 0.

(** One iteration of the loop of the function template [ParseBytes]:
    [result |= static_cast<T>(bytes[i]) << (8 * i)].  The byte is
    converted to [T]; the shift is done in the promoted type, where a
    signed result wraps around (two's complement, as C++20 defines it);
    the compound assignment converts back to [T]. *)
Definition ParseBytes_step (T : IntType) (bytes : buffer) (result : Z) (i : nat) : Z :=
  static_cast T
    (Z.lor result
       (static_cast (promote T)
          (Z.shiftl (static_cast T (load bytes i)) (8 * Z.of_nat i)))).

(** [template <typename T> T ParseBytes(const uint8_t *bytes)] *)
Definition ParseBytes (T : IntType) (bytes : buffer) : Z :=
  fold_left (ParseBytes_step T bytes) (seq 0 (sizeof T)) 0.

(** One iteration of the loop of the integral [dumpBytes]:
    [buf[i] = static_cast<uint8_t>(value >> (i * 8))]. *)
Definition dumpBytes_step (value : Z) (buf : buffer) (i : nat) : buffer :=
  <[ i := static_cast uint8_t (Z.shiftr value (Z.of_nat i * 8)) ]> buf.

(** [dumpBytes(const T &value, uint8_t *buf)] for an integral [T]; the
    result is the buffer after the call. *)
Definition dumpBytes (T : IntType) (value : Z) (buf : buffer) : buffer :=
  fold_left (dumpBytes_step value) (seq 0 (sizeof T)) buf.

(** [enum class BusSpeed : uint8_t] *)
Inductive BusSpeed : Type :=
| LowSpeed | FullSpeed | HighSpeed | SuperSpeed | SuperSpeedPlus.

(** The enumerators' values. *)
Definition BusSpeed_value (s : BusSpeed) : Z :=
  match s with
  | LowSpeed => 1
  | FullSpeed => 2
  | HighSpeed => 4
  | SuperSpeed => 8
  | SuperSpeedPlus => 16
  end.

(** The values of a [uint8_t]. *)
Definition is_byte (b : Z) : Prop := 0 <= b < 256.

(** The number that four bytes hold in little-endian order. *)
Definition le_u32 (b0 b1 b2 b3 : Z) : Z :=
  b0 + b1 * 2 ^ 8 + b2 * 2 ^ 16 + b3 * 2 ^ 24.

(** The primary class template's [ParseBytes<T>::parse_bytes], which the
    source instantiates at [uint32_t]: the four bytes are promoted to
    [int], shifted and or-ed there, and the sum is converted to [T]. *)
Definition parse_bytes (T : IntType) (bytes : buffer) : Z :=
  let sh (i : nat) (k : Z) := static_cast int (Z.shiftl (load bytes i) k) in
  static_cast T
    (Z.lor (Z.lor (Z.lor (load bytes 0) (sh 1%nat 8)) (sh 2%nat 16)) (sh 3%nat 24)).

(** [ParseBytes<u3v::BusSpeed>::parse_bytes] *)
Definition parse_bytes_BusSpeed (bytes : buffer) : result BusSpeed :=
  let raw := parse_bytes uint32_t bytes in
  match raw with
  | 1 => ret LowSpeed
  | 2 => ret FullSpeed
  | 4 => ret HighSpeed
  | 8 => ret SuperSpeed
  | 16 => ret SuperSpeedPlus
  | _ => throw (ControlError "invalid bus speed defined")
  end.

(** A [std::string] is the sequence of its [size()] bytes; it may hold
    zero bytes. *)
Abbreviation std_string := (list Z).

(** [std::memcpy(dst, src, n)] on the buffer that starts at [dst]: its
    first [n] bytes become those of [src]. *)
Definition memcpy (dst src : buffer) (n : nat) : buffer :=
  take n src ++ drop n dst.

(** [void dumpBytes(const std::string &str, uint8_t *buf, size_t bufSize)]:
    the outcome and the buffer after the call. *)
Definition dumpBytes_string (str : std_string) (buf : buffer) (bufSize : nat)
  : result unit * buffer :=
  if (bufSize <? length str)%nat
  then (throw (runtime_error "too large string"), buf)
  else
    let buf := memcpy buf str (length str) in
    (* Zero terminate if data is shorter than buffer length. *)
    let buf :=
      if (length str <? bufSize)%nat then <[ length str := 0 ]> buf else buf in
    (ret tt, buf).

(** Modelled from the spec: the decoder of string registers is not in
    src.  "Strings are fixed-width, zero-terminated within the slot;
    decoding stops at the first zero byte."  [until_zero] is the part of
    the slot that holds the text. *)
Fixpoint until_zero (slot : buffer) : buffer :=
  match slot with
  | [] => []
  | b :: slot' => if b =? 0 then [] else b :: until_zero slot'
  end.

Definition in_range (lo hi b : Z) : bool := (lo <=? b) && (b <=? hi).

(** A byte that is an ASCII character. *)
Definition is_ascii (b : Z) : bool := in_range 0x00 0x7F b.

(** Modelled from the spec: "ASCII with replacement of invalid bytes".
    The spec does not name what an invalid byte is replaced by: it is the
    parameter [replacement]. *)
Definition decode_ascii (replacement : std_string) (text : buffer)
  : std_string :=
  flat_map (fun b => if is_ascii b then [b] else replacement) text.

(** A continuation byte of a UTF-8 sequence. *)
Definition continuation (b : Z) : bool := in_range 0x80 0xBF b.

(** The second byte of a sequence of three, after the first byte [b0]:
    no overlong form (E0) and no surrogate (ED). *)
Definition second_of_three (b0 b1 : Z) : bool :=
  if b0 =? 0xE0 then in_range 0xA0 0xBF b1
  else if b0 =? 0xED then in_range 0x80 0x9F b1
  else continuation b1.

(** The second byte of a sequence of four, after the first byte [b0]:
    no overlong form (F0) and nothing above U+10FFFF (F4). *)
Definition second_of_four (b0 b1 : Z) : bool :=
  if b0 =? 0xF0 then in_range 0x90 0xBF b1
  else if b0 =? 0xF4 then in_range 0x80 0x8F b1
  else continuation b1.

(** Modelled from the spec: "UTF-8".  The well-formed byte sequences of
    UTF-8 (RFC 3629, section 4): one byte 00..7F; two bytes C2..DF
    80..BF; three bytes E0 A0..BF 80..BF, E1..EC 80..BF 80..BF,
    ED 80..9F 80..BF, EE..EF 80..BF 80..BF; four bytes
    F0 90..BF 80..BF 80..BF, F1..F3 80..BF 80..BF 80..BF,
    F4 80..8F 80..BF 80..BF. *)
Fixpoint well_formed_utf8 (text : buffer) : bool :=
  match text with
  | [] => true
  | b0 :: text0 =>
      if is_ascii b0 then well_formed_utf8 text0
      else
        match text0 with
        | [] => false
        | b1 :: text1 =>
            if in_range 0xC2 0xDF b0
            then continuation b1 && well_formed_utf8 text1
            else
              match text1 with
              | [] => false
              | b2 :: text2 =>
                  if in_range 0xE0 0xEF b0
                  then second_of_three b0 b1 && continuation b2
                       && well_formed_utf8 text2
                  else
                    match text2 with
                    | [] => false
                    | b3 :: text3 =>
                        in_range 0xF0 0xF4 b0 && second_of_four b0 b1
                        && continuation b2 && continuation b3
                        && well_formed_utf8 text3
                    end
              end
        end
  end.

(** Modelled from the spec: "decoding stops at the first zero byte.
    UTF-8 iff the UTF-8-support capability bit is set, else ASCII with
    replacement of invalid bytes."  [utf8] is the capability bit.  The
    decoded string is held as bytes, like the [std::string] that was
    dumped.  The spec does not say what the decoder does with text that is
    not well-formed UTF-8 when the bit is set: no string ([None]). *)
Definition decode_string (utf8 : bool) (replacement : std_string)
  (slot : buffer) : option std_string :=
  let text := until_zero slot in
  if utf8
  then (if well_formed_utf8 text then Some text else None)
  else Some (decode_ascii replacement text).

End RegisterMap.

(** ** u3v.cpp *)

Module U3V.

(** [u3v::ErrorType], as [convertToControlError] switches over it. *)
Inductive ErrorType : Type :=
| LibUsb | BufferIo | InvalidPacket | InvalidDevice.

(** [u3v::Error]: the conversion looks at [err.type()] and [err.what()]
    only (the [LibUsbError] it extracts is switched over by a [switch]
    with no case label). *)
Record Error : Type := MkError { type : ErrorType; what : string }.

(** Modelled from the spec: the declaration of [ControlErrorType] is not
    in src; [u3v.cpp] names the enumerators [Io] and [InvalidDevice], the
    others are the kinds the error taxonomy lists for [ControlError]. *)
Module ControlErrorType.
Inductive t : Type :=
| Io | InvalidDevice | InvalidPacket | Nak | Timeout | PendingAckExceeded
| NotOpened | BufferTooSmall | ParseError.
End ControlErrorType.

(** The [ControlError] that [convertToControlError] builds: a kind and a
    text. *)
Record ControlError : Type :=
  MkControlError { kind : ControlErrorType.t; message : string }.

(** What the statements under one [case] label do: return a value, or
    run into the statements of the next label. *)
Inductive flow (A : Type) : Type :=
| Return (a : A)
| FallThrough.
Arguments Return {A} a.
Arguments FallThrough {A}.

(** The labels of the outer [switch] of [convertToControlError], in
    source order. *)
Definition labels : list ErrorType :=
  [LibUsb; BufferIo; InvalidPacket; InvalidDevice].

Definition ErrorType_eqb (a b : ErrorType) : bool :=
  match a, b with
  | LibUsb, LibUsb | BufferIo, BufferIo
  | InvalidPacket, InvalidPacket | InvalidDevice, InvalidDevice => true
  | _, _ => false
  end.

(** The statements under each label.  Under [LibUsb] the inner [switch]
    has no case and nothing returns or breaks after it; [BufferIo] is an
    empty label. *)
Definition statements (err : Error) (label : ErrorType) : flow ControlError :=
  match label with
  | LibUsb => FallThrough
  | BufferIo => FallThrough
  | InvalidPacket => Return (MkControlError ControlErrorType.Io (what err))
  | InvalidDevice =>
      Return (MkControlError ControlErrorType.InvalidDevice "invalid device")
  end.

(** Run the statements from the first label on. *)
Fixpoint run_labels (err : Error) (ls : list ErrorType) : option ControlError :=
  match ls with
  | [] => None
  | l :: ls' =>
      match statements err l with
      | Return c => Some c
      | FallThrough => run_labels err ls'
      end
  end.

(** Jump to the label equal to the scrutinee, then run. *)
Fixpoint switch (err : Error) (scrutinee : ErrorType) (ls : list ErrorType)
  : option ControlError :=
  match ls with
  | [] => None
  | l :: ls' =>
      if ErrorType_eqb scrutinee l then run_labels err ls
      else switch err scrutinee ls'
  end.

(** [ControlError convertToControlError(const u3v::Error& err)]; [None]
    would be control reaching the end of the function without a
    [return]. *)
Definition convertToControlError (err : Error) : option ControlError :=
  switch err (type err) labels.

(** [u3v::DeviceInfo]: the three strings that the enumeration reads, and
    the vendor and product ids. *)
Record DeviceInfo : Type := MkDeviceInfo {
  vendorName : string;
  modelName : string;
  serialNumber : string;
  vendor_id : Z;
  product_id : Z
}.

Record CameraInfo : Type := MkCameraInfo {
  vendor_name : string;
  model_name : string;
  serial_number : string
}.

(** The handle classes that [enumerateCameras] constructs per device.
    Their constructors from a [DeviceInfo] and their [isValid] are not in
    src: they are the parameters of the enumeration. *)
Class Handles : Type := {
  ControlHandle : Type;
  StreamHandle : Type;
  ControlHandle_ctor : DeviceInfo -> ControlHandle;
  ControlHandle_isValid : ControlHandle -> bool;
  StreamHandle_ctor : DeviceInfo -> StreamHandle;
  StreamHandle_isValid : StreamHandle -> bool
}.

Section Enumerate.
Context `{Handles}.

(** [Camera<ControlHandle, StreamHandle>], built by
    [emplace_back(ctrl, strm, nullptr, camera_info)]. *)
Record Camera : Type := MkCamera {
  ctrl : ControlHandle;
  strm : StreamHandle;
  ctxt : option unit;
  info : CameraInfo
}.

(** The body of the [for] loop, on the vector built so far. *)
Definition enumerateCameras_body (cameras : list Camera) (dev : DeviceInfo)
  : list Camera :=
  let ctrl := ControlHandle_ctor dev in
  if negb (ControlHandle_isValid ctrl) then cameras
  else
    let strm := StreamHandle_ctor dev in
    if negb (StreamHandle_isValid strm) then cameras
    else
      let camera_info :=
        MkCameraInfo (vendorName dev) (modelName dev) (serialNumber dev) in
      cameras ++ [MkCamera ctrl strm None camera_info].

(** [enumerateCameras()], on the vector that [u3v::enumerateDevices()]
    returned. *)
Definition enumerateCameras (devices : list DeviceInfo) : list Camera :=
  fold_left enumerateCameras_body devices [].

(** A device both of whose handles are valid, and its camera. *)
Definition usable (dev : DeviceInfo) : bool :=
  ControlHandle_isValid (ControlHandle_ctor dev)
  && StreamHandle_isValid (StreamHandle_ctor dev).

Definition camera_of (dev : DeviceInfo) : Camera :=
  MkCamera (ControlHandle_ctor dev) (StreamHandle_ctor dev) None
    (MkCameraInfo (vendorName dev) (modelName dev) (serialNumber dev)).

End Enumerate.

End U3V.

(** ** ControlHandle.h and control_handle.cpp: connection configuration *)

Module Config.

(** A [std::chrono] duration stands for its length in milliseconds. *)
Abbreviation milliseconds := Z.

(** The constants of [ControlHandle.h]. *)
Definition INITIAL_TIMEOUT_DURATION : milliseconds := 500.
Definition INITIAL_MAXIMUM_CMD_LENGTH : Z := 128.
Definition INITIAL_MAXIMUM_ACK_LENGTH : Z := 128.
Definition PAYLOAD_TRANSFER_SIZE : Z := 1024 * 64.

Record ConnectionConfig : Type := MkConnectionConfig {
  timeout_duration : milliseconds;
  retry_count : Z;
  maximum_cmd_length : Z;
  maximum_ack_length : Z
}.

(** [ConnectionConfig::ConnectionConfig()], the class's only constructor;
    each member initialiser converts to the member's type.  The timeout
    member is a [duration<double>] in seconds: 500 ms is 0.5 s, which a
    double holds exactly. *)
Definition ConnectionConfig_ctor : ConnectionConfig :=
  {| timeout_duration := INITIAL_TIMEOUT_DURATION;
     retry_count := static_cast uint16_t 3;
     maximum_cmd_length := static_cast uint32_t INITIAL_MAXIMUM_CMD_LENGTH;
     maximum_ack_length := static_cast uint32_t INITIAL_MAXIMUM_ACK_LENGTH |}.

End Config.

(** ** The session of a ControlHandle *)

Module Session.
Import Config.

(** Modelled from the spec: the constructor of [ControlHandle], its
    [open] and the members of [ControlHandleImpl] are not in src
    ([ControlHandle.h] declares them; the class holds an opaque [impl_]).
    "ControlHandle state machine - states: CREATED -> OPENED -> CLOSED." *)
Inductive State : Type := CREATED | OPENED | CLOSED.

(** Modelled from the spec: "ControlHandle - per-device session: owns
    Transport, Framing, mutable connection configuration (timeouts,
    retries, maximum command/ack lengths, buffer capacity)".  Of the
    session, the device it belongs to, its state and the
    [ConnectionConfig] it owns are kept. *)
Record ControlHandle : Type := MkControlHandle {
  device_info : U3V.DeviceInfo;
  state : State;
  config : ConnectionConfig
}.

(** Modelled from the spec: a new session is in CREATED, the first state
    of the state machine, and owns a [ConnectionConfig] built by that
    class's constructor; it has read no register: "Entering OPENED
    (re)reads ABRM fields that govern framing limits". *)
Definition ControlHandle_ctor (dev : U3V.DeviceInfo) : ControlHandle :=
  MkControlHandle dev CREATED ConnectionConfig_ctor.

(** Modelled from the spec: "[is_opened()] reflects current state". *)
Definition is_opened (h : ControlHandle) : bool :=
  match state h with
  | OPENED => true
  | _ => false
  end.

(** The bootstrap registers whose values end up in the configuration:
    ABRM's "maximum device response time | u32 RO (milliseconds)" and
    SBRM's "maximum_cmd_length (u32), maximum_ack_length (u32)". *)
Record Bootstrap : Type := MkBootstrap {
  maximum_device_response_time : Z;
  sbrm_maximum_cmd_length : Z;
  sbrm_maximum_ack_length : Z
}.

(** Modelled from the spec: "[open()] is valid only in CREATED or CLOSED"
    and the open sequence, "2. With provisional ConnectionConfig values,
    read ABRM's ... maximum device response time.  3. Replace provisional
    timeout_duration with maximum device response time.  4. Read SBRM
    pointer from ABRM and, from SBRM, the negotiated maximum_cmd_length and
    maximum_ack_length; install into ConnectionConfig.  5. State
    transitions to OPENED."  [regs] is what the device answers to the
    reads of steps 2 and 4; [None] is an [open] that is not valid. *)
Definition open (regs : Bootstrap) (h : ControlHandle)
  : option ControlHandle :=
  match state h with
  | OPENED => None
  | CREATED | CLOSED =>
      Some (MkControlHandle (device_info h) OPENED
              {| timeout_duration := maximum_device_response_time regs;
                 retry_count := retry_count (config h);
                 maximum_cmd_length := sbrm_maximum_cmd_length regs;
                 maximum_ack_length := sbrm_maximum_ack_length regs |})
  end.

End Session.

(** ** control_handle.cpp: stream parameters and payload reads *)

Module Stream.
Import Config.

(** [struct StreamParams]; the size members are [size_t]. *)
Record StreamParams : Type := MkStreamParams {
  leader_size : Z;
  trailer_size : Z;
  payload_size : Z;
  payload_count : Z;
  payload_final1_size : Z;
  payload_final2_size : Z;
  timeout : milliseconds
}.

(** The size members hold values of [size_t]. *)
Definition StreamParams_ok (params : StreamParams) : Prop :=
  representable size_t (leader_size params)
  /\ representable size_t (trailer_size params)
  /\ representable size_t (payload_size params)
  /\ representable size_t (payload_count params)
  /\ representable size_t (payload_final1_size params)
  /\ representable size_t (payload_final2_size params).

(** Multiplication and addition of [size_t] values. *)
Definition size_mul (a b : Z) : Z := static_cast size_t (a * b).
Definition size_add (a b : Z) : Z := static_cast size_t (a + b).

(** [StreamParams::maximum_payload_size()] *)
Definition maximum_payload_size (params : StreamParams) : Z :=
  size_add
    (size_add (size_mul (payload_size params) (payload_count params))
       (payload_final1_size params))
    (payload_final2_size params).

(** A read submitted to the pool: [size] bytes to be stored from
    [buf.data() + offset] on. *)
Record read_request : Type := MkRead { offset : Z; size : Z }.

(** [AsyncPool::submit] is not in src.  A pool is the sequence of the reads
    it has accepted; whether a submission throws, and with what text, is
    the parameter [submit_throws]. *)
Class AsyncPool : Type := {
  submit_throws : list read_request -> read_request -> option string
}.

Section ReadPayload.
Context `{AsyncPool}.

(** [async_pool.submit(buf.data() + cursor, size)] *)
Definition submit (pool : list read_request) (cursor size : Z)
  : result unit * list read_request :=
  match submit_throws pool (MkRead cursor size) with
  | Some w => (throw (runtime_error w), pool)
  | None => (ret tt, pool ++ [MkRead cursor size])
  end.

(** The [for] loop of [read_payload], with [n] iterations left; it
    returns the cursor it ends with. *)
Fixpoint submit_payloads (n : nat) (payload_size : Z)
  (pool : list read_request) (cursor : Z) : result Z * list read_request :=
  match n with
  | O => (ret cursor, pool)
  | S n' =>
      match submit pool cursor payload_size with
      | (inl e, pool') => (inl e, pool')
      | (inr _, pool') =>
          submit_payloads n' payload_size pool' (size_add cursor payload_size)
      end
  end.

(** The statements of the [try] block of [read_payload]. *)
Definition read_payload_try (params : StreamParams)
  (pool : list read_request) : result unit * list read_request :=
  match submit_payloads (Z.to_nat (payload_count params))
          (payload_size params) pool 0 with
  | (inl e, pool) => (inl e, pool)
  | (inr cursor, pool) =>
      let '(r1, pool, cursor) :=
        if negb (payload_final1_size params =? 0)
        then
          let '(r, pool) := submit pool cursor (payload_final1_size params) in
          (r, pool, size_add cursor (payload_final1_size params))
        else (ret tt, pool, cursor) in
      match r1 with
      | inl e => (inl e, pool)
      | inr _ =>
          if negb (payload_final2_size params =? 0)
          then submit pool cursor (payload_final2_size params)
          else (ret tt, pool)
      end
  end.

(** [void read_payload(AsyncPool &async_pool, const StreamParams &params,
    std::vector<uint8_t> &buf)], on a buffer of [buf_size] bytes: the
    outcome and the pool after the call. *)
Definition read_payload (pool : list read_request) (params : StreamParams)
  (buf_size : Z) : result unit * list read_request :=
  let payload_size := payload_size params in
  let total_payload_size :=
    size_add
      (size_add (size_mul payload_size (payload_count params))
         (payload_final1_size params))
      (payload_final2_size params) in
  if buf_size <? total_payload_size
  then (throw (runtime_error "Buffer is too small to read the payload"), pool)
  else
    match read_payload_try params pool with
    | (inl e, pool) =>
        (throw (StreamError ("Failed to read payload: " ++ what e)), pool)
    | (inr _, pool) => (ret tt, pool)
    end.

End ReadPayload.

(** A pool none of whose submissions throws. *)
Definition reliable_pool : AsyncPool := {| submit_throws := fun _ _ => None |}.

(** A pool that refuses the read at a given offset. *)
Definition refusing_pool (at_offset : Z) : AsyncPool :=
  {| submit_throws := fun _ r =>
       if offset r =? at_offset then Some "transfer failed"%string else None |}.

(** The reads lie one after the other from [start] on. *)
Fixpoint contiguous_from (start : Z) (reads : list read_request) : Prop :=
  match reads with
  | [] => True
  | r :: reads' =>
      offset r = start /\ 0 <= size r
      /\ contiguous_from (start + size r) reads'
  end.

(** The number of bytes the reads cover. *)
Definition total_size (reads : list read_request) : Z :=
  fold_right (fun r acc => size r + acc) 0 reads.

(** The read stays inside a buffer of [buf_size] bytes. *)
Definition within (buf_size : Z) (r : read_request) : Prop :=
  0 <= offset r /\ offset r + size r <= buf_size.

(** No byte belongs to two of the reads: each read ends before every later
    one starts. *)
Fixpoint disjoint_reads (reads : list read_request) : Prop :=
  match reads with
  | [] => True
  | r :: reads' =>
      Forall (fun r' => offset r + size r <= offset r') reads'
      /\ disjoint_reads reads'
  end.

End Stream.

(** ** DeviceControl.h and control_handle.cpp: the control interface *)

Module Control.
Import Stream.

(** A call on an object whose state is [S]: it does not return ([None]),
    or it throws or returns a value and leaves the object in a new
    state. *)
Definition comp (S R : Type) : Type := S -> option (result R * S).

Definition pure {S R : Type} (r : R) : comp S R :=
  fun s => Some (ret r, s).

Definition raise {S R : Type} (e : exception) : comp S R :=
  fun s => Some (throw e, s).

Definition bind {S A B : Type} (m : comp S A) (f : A -> comp S B) : comp S B :=
  fun s =>
    match m s with
    | None => None
    | Some (inl e, s') => Some (inl e, s')
    | Some (inr a, s') => f a s'
    end.

Notation "x <- m ;; f" := (bind m (fun x => f))
  (at level 100, m at next level, right associativity).

(** [class DeviceControl]: the pure virtual interface.  A [const] method
    is a call like any other: the implementation sits behind a pointer. *)
Class DeviceControl (S : Type) : Type := {
  timeout_duration : comp S Z;
  set_timeout_duration : Z -> comp S unit;
  retry_count : comp S Z;
  set_retry_count : Z -> comp S unit;
  buffer_capacity : comp S Z;
  resize_buffer : Z -> comp S unit;
  device_info : comp S U3V.DeviceInfo;
  is_opened : comp S bool;
  open : comp S bool;
  close : comp S bool;
  (* [buf] is passed by reference: the call returns its new contents. *)
  read : Z -> list Z -> comp S (bool * list Z);
  write : Z -> list Z -> comp S bool;
  genapi : comp S string;
  enable_streaming : comp S bool;
  disable_streaming : comp S bool
}.

(** The operations of the interface with their arguments, indexed by the
    type of what they return. *)
Inductive Op : Type -> Type :=
| TimeoutDuration : Op Z
| SetTimeoutDuration (duration : Z) : Op unit
| RetryCount : Op Z
| SetRetryCount (count : Z) : Op unit
| BufferCapacity : Op Z
| ResizeBuffer (size : Z) : Op unit
| GetDeviceInfo : Op U3V.DeviceInfo
| IsOpened : Op bool
| Open : Op bool
| Close : Op bool
| Read (address : Z) (buf : list Z) : Op (bool * list Z)
| Write (address : Z) (data : list Z) : Op bool
| Genapi : Op string
| EnableStreaming : Op bool
| DisableStreaming : Op bool.

(** Virtual dispatch: the method of the object for an operation. *)
Definition invoke {S : Type} `{DeviceControl S} {R : Type} (op : Op R)
  : comp S R :=
  match op with
  | TimeoutDuration => timeout_duration
  | SetTimeoutDuration duration => set_timeout_duration duration
  | RetryCount => retry_count
  | SetRetryCount count => set_retry_count count
  | BufferCapacity => buffer_capacity
  | ResizeBuffer size => resize_buffer size
  | GetDeviceInfo => device_info
  | IsOpened => is_opened
  | Open => open
  | Close => close
  | Read address buf => read address buf
  | Write address data => write address data
  | Genapi => genapi
  | EnableStreaming => enable_streaming
  | DisableStreaming => disable_streaming
  end.

(** *** SharedControlHandle *)

(** Objects owned through a [std::shared_ptr] live in a store; the
    pointer is the object's location there. *)
Abbreviation loc := positive.

(** [class SharedControlHandle]: the pointer to the shared
    [ControlHandle], and whether the mutex is held. *)
Record SharedControlHandle : Type := MkShared {
  m_handle : loc;
  m_mutex : bool
}.

(** [explicit SharedControlHandle(std::shared_ptr<ControlHandle> handle)] *)
Definition SharedControlHandle_ctor (handle : loc) : SharedControlHandle :=
  MkShared handle false.

Section Shared.
(** The bodies of [ControlHandle]'s methods are not in src: the class is
    a parameter with an implementation of the interface. *)
Context {ControlHandle : Type} `{DeviceControl ControlHandle}.

(** [m_handle->f(...)]: the call is made on the object the pointer refers
    to, in the store; a pointer to no object has no defined behaviour. *)
Definition deref {R : Type} (l : loc) (f : comp ControlHandle R)
  : comp (gmap loc ControlHandle) R :=
  fun store =>
    match store !! l with
    | None => None
    | Some handle =>
        match f handle with
        | None => None
        | Some (r, handle') => Some (r, <[ l := handle' ]> store)
        end
    end.

(** [std::mutex::lock]: a thread that locks a mutex it already holds does
    not return from the call. *)
Definition lock (s : SharedControlHandle) : option SharedControlHandle :=
  if m_mutex s then None else Some (MkShared (m_handle s) true).

Definition unlock (s : SharedControlHandle) : SharedControlHandle :=
  MkShared (m_handle s) false.

(** [std::lock_guard<std::mutex> lock(m_mutex); return m_handle->f(...);]
    The guard locks on construction and unlocks when the scope is left,
    by [return] or by an exception. *)
Definition lock_guard {R : Type} (f : comp ControlHandle R)
  : comp (gmap loc ControlHandle * SharedControlHandle) R :=
  fun '(store, s) =>
    match lock s with
    | None => None
    | Some s =>
        match deref (m_handle s) f store with
        | None => None
        | Some (r, store') => Some (r, (store', unlock s))
        end
    end.

(** [SharedControlHandle]'s overrides, one per method of the interface. *)
#[export] Instance SharedControlHandle_DeviceControl
  : DeviceControl (gmap loc ControlHandle * SharedControlHandle) := {|
  buffer_capacity := lock_guard buffer_capacity;
  resize_buffer size := lock_guard (resize_buffer size);
  timeout_duration := lock_guard timeout_duration;
  set_timeout_duration duration := lock_guard (set_timeout_duration duration);
  retry_count := lock_guard retry_count;
  set_retry_count count := lock_guard (set_retry_count count);
  device_info := lock_guard device_info;
  is_opened := lock_guard is_opened;
  open := lock_guard open;
  close := lock_guard close;
  read address buf := lock_guard (read address buf);
  write address data := lock_guard (write address data);
  genapi := lock_guard genapi;
  enable_streaming := lock_guard enable_streaming;
  disable_streaming := lock_guard disable_streaming
|}.

End Shared.

(** *** StreamParams::from_control *)

(** Modelled from the spec: class [Sirm] is a placeholder in src and its
    [operator!] is not there.  "Fails ... if SIRM is absent (SBRM's SIRM
    pointer is zero)": a [Sirm] is the address SBRM reports for it, and it
    is absent when that address is zero. *)
Record Sirm : Type := MkSirm { sirm_address : Z }.

Definition Sirm_absent (sirm : Sirm) : bool := sirm_address sirm =? 0.

(** The register accessors that [from_control] calls on [Abrm], [Sbrm] and
    [Sirm]; their bodies are not in src.  Each is a call on the control
    object. *)
Class RegisterAccess (S : Type) : Type := {
  (* [abrm.sbrm(ctrl).sirm(ctrl)] *)
  sbrm_sirm : comp S Sirm;
  maximum_leader_size : Sirm -> comp S Z;
  maximum_trailer_size : Sirm -> comp S Z;
  payload_transfer_size : Sirm -> comp S Z;
  payload_transfer_count : Sirm -> comp S Z;
  payload_final_transfer1_size : Sirm -> comp S Z;
  payload_final_transfer2_size : Sirm -> comp S Z;
  maximum_device_response_time : comp S Z;
  (* the write of the Stream Enable bit of the SIRM control register *)
  write_stream_enable : Sirm -> bool -> comp S unit
}.

(** Modelled from the spec: the specification names the failure for an
    absent SIRM UnsupportedOperation.  The source has one throw site for
    that condition, in [from_control], and its [ControlError] carries a
    text only: this is that exception. *)
Definition UnsupportedOperation : exception :=
  ControlError "the U3V device doesn't have `SIRM`".

Section FromControl.
Context {S : Type} `{DeviceControl S} `{RegisterAccess S}.

(** [static StreamParams from_control(DeviceControl &ctrl)] *)
Definition from_control : comp S StreamParams :=
  sirm <- sbrm_sirm ;;
  if Sirm_absent sirm
  then raise (ControlError "the U3V device doesn't have `SIRM`")
  else
    leader_size <- maximum_leader_size sirm ;;
    trailer_size <- maximum_trailer_size sirm ;;
    payload_size <- payload_transfer_size sirm ;;
    payload_count <- payload_transfer_count sirm ;;
    payload_final1_size <- payload_final_transfer1_size sirm ;;
    payload_final2_size <- payload_final_transfer2_size sirm ;;
    timeout <- maximum_device_response_time ;;
    pure (MkStreamParams leader_size trailer_size payload_size payload_count
            payload_final1_size payload_final2_size timeout).

(** Modelled from the spec: the body of [ControlHandle::enable_streaming]
    is not in src.  "enable_streaming() / disable_streaming() resolve
    SBRM -> SIRM and write the Stream Enable bit at the SIRM-defined
    offset.  Fails with UnsupportedOperation if SIRM is absent (SBRM's
    SIRM pointer is zero)." *)
Definition set_streaming (enable : bool) : comp S unit :=
  sirm <- sbrm_sirm ;;
  if Sirm_absent sirm
  then raise UnsupportedOperation
  else write_stream_enable sirm enable.

Definition ControlHandle_enable_streaming : comp S unit := set_streaming true.


End FromControl.

End Control.

(** ** An in-memory handle *)

(** A handle to run the interface on: its configuration, its state and the
    SIRM address its SBRM reports are fields of a record, and the register
    reads answer from them. *)
Module ModelDevice.
Import Control.

Record handle : Type := MkHandle {
  h_opened : bool;
  h_timeout : Z;
  h_retry : Z;
  h_capacity : Z;
  h_sirm : Z;
  h_streaming : bool
}.

Definition set_opened (b : bool) (h : handle) : handle :=
  MkHandle b (h_timeout h) (h_retry h) (h_capacity h) (h_sirm h) (h_streaming h).

Definition set_timeout (d : Z) (h : handle) : handle :=
  MkHandle (h_opened h) d (h_retry h) (h_capacity h) (h_sirm h) (h_streaming h).

Definition set_retry (n : Z) (h : handle) : handle :=
  MkHandle (h_opened h) (h_timeout h) n (h_capacity h) (h_sirm h) (h_streaming h).

Definition set_capacity (n : Z) (h : handle) : handle :=
  MkHandle (h_opened h) (h_timeout h) (h_retry h) n (h_sirm h) (h_streaming h).

Definition set_stream (b : bool) (h : handle) : handle :=
  MkHandle (h_opened h) (h_timeout h) (h_retry h) (h_capacity h) (h_sirm h) b.

Definition info : U3V.DeviceInfo :=
  U3V.MkDeviceInfo "vendor" "model" "SN000123" 0x2676 0xBA02.

#[export] Instance handle_RegisterAccess : RegisterAccess handle := {|
  sbrm_sirm := fun h => Some (ret (MkSirm (h_sirm h)), h);
  maximum_leader_size := fun _ => pure 52;
  maximum_trailer_size := fun _ => pure 32;
  payload_transfer_size := fun _ => pure 65536;
  payload_transfer_count := fun _ => pure 4;
  payload_final_transfer1_size := fun _ => pure 1024;
  payload_final_transfer2_size := fun _ => pure 0;
  maximum_device_response_time := fun h => Some (ret (h_timeout h), h);
  write_stream_enable := fun _ b h => Some (ret tt, set_stream b h)
|}.

#[export] Instance handle_DeviceControl : DeviceControl handle := {|
  timeout_duration := fun h => Some (ret (h_timeout h), h);
  set_timeout_duration := fun d h => Some (ret tt, set_timeout d h);
  retry_count := fun h => Some (ret (h_retry h), h);
  set_retry_count := fun n h => Some (ret tt, set_retry n h);
  buffer_capacity := fun h => Some (ret (h_capacity h), h);
  resize_buffer := fun n h => Some (ret tt, set_capacity n h);
  device_info := pure info;
  is_opened := fun h => Some (ret (h_opened h), h);
  open := fun h => Some (ret (negb (h_opened h)), set_opened true h);
  close := fun h => Some (ret (h_opened h), set_opened false h);
  read := fun _ buf h => Some (ret (h_opened h, buf), h);
  write := fun _ _ h => Some (ret (h_opened h), h);
  genapi := fun h =>
    if h_opened h then Some (ret "<RegisterDescription/>"%string, h)
    else Some (throw (ControlError "not opened"), h);
  enable_streaming := fun h =>
    if h_sirm h =? 0 then Some (ret false, h)
    else Some (ret true, set_stream true h);
  disable_streaming := fun h =>
    if h_sirm h =? 0 then Some (ret false, h)
    else Some (ret true, set_stream false h)
|}.

(** Handles for the enumeration: a handle is the device it was built
    for; a control handle is valid when the vendor id is not zero, a
    stream handle when the product id is not zero. *)
#[export] Instance handles : U3V.Handles := {|
  U3V.ControlHandle := U3V.DeviceInfo;
  U3V.StreamHandle := U3V.DeviceInfo;
  U3V.ControlHandle_ctor := fun dev => dev;
  U3V.ControlHandle_isValid := fun dev => negb (U3V.vendor_id dev =? 0);
  U3V.StreamHandle_ctor := fun dev => dev;
  U3V.StreamHandle_isValid := fun dev => negb (U3V.product_id dev =? 0)
|}.

Definition camera_a : U3V.DeviceInfo :=
  U3V.MkDeviceInfo "vendor" "model A" "SN000123" 0x2676 0xBA02.
Definition no_control : U3V.DeviceInfo :=
  U3V.MkDeviceInfo "vendor" "hub" "" 0 0x0001.
Definition no_stream : U3V.DeviceInfo :=
  U3V.MkDeviceInfo "vendor" "dongle" "" 0x2676 0.
Definition camera_b : U3V.DeviceInfo :=
  U3V.MkDeviceInfo "vendor" "model B" "SN000456" 0x2676 0xBA03.

(** An opened handle on a device without SIRM, and one with SIRM at
    0x20000. *)
Definition no_sirm : handle := MkHandle true 500 3 1024 0 false.
Definition with_sirm : handle := MkHandle true 500 3 1024 0x20000 false.

End ModelDevice.
(** ** The READMEM transaction and its chunking *)

(** Modelled from the spec: [ControlHandle::read] is declared in
    [ControlHandle.h]; its body, with the command framing and the
    chunking, is not in src.  "READMEM (0x0800) with payload (address:u64,
    read_length:u16)"; "RequestId: monotonically increasing 16-bit counter
    per ControlHandle, wrapping at 2^16.  Each outbound command carries
    the next value"; "Chunking (READMEM): a requested byte range longer
    than maximum_ack_length - header_size is split into contiguous
    sub-reads, each with its own request_id; results are concatenated in
    address order." *)
Module Framing.

(** The acknowledge header: prefix, status, acknowledge, length and
    request_id, 12 bytes. *)
Definition header_size : nat := 12.

(** Modelled from the spec: "READMEM (0x0800) with payload (address:u64,
    read_length:u16)", under a "16-bit" request_id.  A command is its
    request_id, a [uint16_t], and its payload: the address, a [uint64_t],
    and the read_length, a [uint16_t]. *)
Record ReadMem : Type := MkReadMem {
  request_id : Z;
  address : Z;
  read_length : Z
}.


(** Modelled from the spec: the command that asks for [len] bytes at
    [address].  Every value is converted to the type of the field that
    carries it, as C++ stores a wider integer in a narrower one. *)
Definition readmem (id address : Z) (len : nat) : ReadMem :=
  MkReadMem (static_cast uint16_t id) (static_cast uint64_t address)
    (static_cast uint16_t (Z.of_nat len)).

(** Modelled from the spec: the next value of the "16-bit counter ...
    wrapping at 2^16". *)
Definition next_request_id (id : Z) : Z := (id + 1) mod 2 ^ 16.

(** The address [len] bytes after [address], an address again: the
    header declares [read(uint64_t address, std::vector<uint8_t> &buf)]. *)
Definition next_address (address : Z) (len : nat) : Z :=
  static_cast uint64_t (address + Z.of_nat len).

(** Modelled from the spec: "split into contiguous sub-reads, each with
    its own request_id".  The sub-reads for [n] bytes from [address] on,
    with at most [chunk] bytes each, the first one carrying [id].  With no
    room for a payload ([chunk] = 0) nothing can be read. *)
Equations? sub_reads (chunk : nat) (id address : Z) (n : nat)
  : list ReadMem by wf n lt :=
sub_reads chunk id address 0%nat := [];
sub_reads 0%nat id address (S n) := [];
sub_reads (S c) id address (S n) :=
  readmem id address (Nat.min (S c) (S n))
  :: sub_reads (S c) (next_request_id id)
       (next_address address (Nat.min (S c) (S n)))
       (S n - Nat.min (S c) (S n)).
Proof. lia. Qed.

(** The device memory, byte by byte, and what a read of [n] bytes at
    [address] returns from it. *)
Definition read_memory (memory : Z -> Z) (address : Z) (n : nat) : list Z :=
  map (fun k => memory (address + Z.of_nat k)) (seq 0 n).

(** The payload of the acknowledge of a READMEM command that succeeds:
    as many bytes as the command's read_length field says, from the
    address its address field says. *)
Definition acknowledge (memory : Z -> Z) (cmd : ReadMem) : list Z :=
  read_memory memory (address cmd) (Z.to_nat (read_length cmd)).

(** Modelled from the spec: "a requested byte range longer than
    maximum_ack_length - header_size is split ...; results are
    concatenated in address order".  A read of [n] bytes at [address] on a
    handle whose next request_id is [id]: the commands sent, and the
    payloads concatenated in address order. *)
Definition read (memory : Z -> Z) (maximum_ack_length : nat)
  (id address : Z) (n : nat) : list ReadMem * list Z :=
  let cmds := sub_reads (maximum_ack_length - header_size) id address n in
  (cmds, concat (map (acknowledge memory) cmds)).


(** The quotient of [n] by [c], rounded up. *)
Definition ceil_div (n c : nat) : nat := ((n + c - 1) / c)%nat.


End Framing.

(** ** register_map.cpp: the device configuration dump *)

Module RegisterMapMore.
Import RegisterMap.

(** The number that the first [n] bytes of a buffer hold in little-endian
    order. *)
Fixpoint le_value (n : nat) (bytes : buffer) : Z :=
  match n with
  | O => 0
  | S n' => le_value n' bytes + load bytes n' * 2 ^ (8 * Z.of_nat n')
  end.

(** The first [n] bytes of the buffer are values of [uint8_t]. *)
Definition bytes_ok (n : nat) (bytes : buffer) : Prop :=
  forall i, (i < n)%nat -> is_byte (load bytes i).

(** [class DeviceConfiguration]: [getData()] returns the byte vector it
    holds. *)
Record DeviceConfiguration : Type := MkDeviceConfiguration {
  getData : list Z
}.

(** [void dumpBytes(const DeviceConfiguration &config, uint8_t *buf,
    size_t bufSize)]: the outcome and the buffer after the call. *)
Definition dumpBytes_DeviceConfiguration (config : DeviceConfiguration)
  (buf : buffer) (bufSize : nat) : result unit * buffer :=
  let data := getData config in
  if (bufSize <? length data)%nat
  then (throw (runtime_error "too large device configuration"), buf)
  else (ret tt, memcpy buf data (length data)).

End RegisterMapMore.

(** ** u3v.cpp: the conversion to StreamError *)

Module U3VStream.
Import U3V.

(** Modelled from the spec: the declaration of [StreamErrorType] is not
    in src; [u3v.cpp] names the enumerator [Io], the taxonomy lists
    [Io] and [InvalidPacket] for [StreamError]. *)
Module StreamErrorType.
Inductive t : Type := Io | InvalidPacket.
End StreamErrorType.

(** The [StreamError] that [convertToStreamError] builds. *)
Record StreamError : Type :=
  MkStreamError { kind : StreamErrorType.t; message : string }.

(** A label of a [switch]: [case] with a value, or [default]. *)
Inductive label : Type :=
| Case (t : ErrorType)
| Default.

(** The outer [switch] of [convertToStreamError]: its labels in source
    order, each with what its statements do.  Under [LibUsb] the inner
    [switch] has no case and nothing returns or breaks after it. *)
Definition cases (err : Error) : list (label * flow StreamError) :=
  [ (Case LibUsb, FallThrough);
    (Default, Return (MkStreamError StreamErrorType.Io (what err))) ].

(** Run the statements from the first label of the list on. *)
Fixpoint run {A : Type} (cs : list (label * flow A)) : option A :=
  match cs with
  | [] => None
  | (_, Return a) :: _ => Some a
  | (_, FallThrough) :: cs' => run cs'
  end.

(** The labels from the [case] equal to the scrutinee on, if there is
    one. *)
Fixpoint from_case {A : Type} (scrutinee : ErrorType)
  (cs : list (label * flow A)) : option (list (label * flow A)) :=
  match cs with
  | [] => None
  | (Case t, f) :: cs' =>
      if ErrorType_eqb scrutinee t then Some cs else from_case scrutinee cs'
  | (Default, _) :: cs' => from_case scrutinee cs'
  end.

(** The labels from [default] on, if there is one. *)
Fixpoint from_default {A : Type} (cs : list (label * flow A))
  : option (list (label * flow A)) :=
  match cs with
  | [] => None
  | (Default, f) :: cs' => Some cs
  | (Case _, _) :: cs' => from_default cs'
  end.

(** A [switch]: jump to the matching [case], else to [default], else past
    the statement. *)
Definition switch {A : Type} (scrutinee : ErrorType)
  (cs : list (label * flow A)) : option A :=
  match from_case scrutinee cs with
  | Some cs' => run cs'
  | None =>
      match from_default cs with
      | Some cs' => run cs'
      | None => None
      end
  end.

(** [StreamError convertToStreamError(const u3v::Error& err)]; [None]
    would be control reaching the end of the function without a
    [return]. *)
Definition convertToStreamError (err : Error) : option StreamError :=
  switch (type err) (cases err).

End U3VStream.

(** ** control_handle.cpp: leader and trailer reads *)

Module StreamMore.
Import Stream.

Section ReadLeaderTrailer.
Context `{AsyncPool}.

(** [void read_leader(AsyncPool &async_pool, const StreamParams &params,
    std::vector<uint8_t> &buf)] on a buffer of [buf_size] bytes. *)
Definition read_leader (pool : list read_request) (params : StreamParams)
  (buf_size : Z) : result unit * list read_request :=
  let leader_size := leader_size params in
  if buf_size <? leader_size
  then (throw (runtime_error "Buffer is too small to read the leader"), pool)
  else
    match submit pool 0 leader_size with
    | (inl e, pool) =>
        (throw (StreamError ("Failed to read leader: " ++ what e)), pool)
    | (inr _, pool) => (ret tt, pool)
    end.

(** [void read_trailer(AsyncPool &async_pool, const StreamParams &params,
    std::vector<uint8_t> &buf)] on a buffer of [buf_size] bytes. *)
Definition read_trailer (pool : list read_request) (params : StreamParams)
  (buf_size : Z) : result unit * list read_request :=
  let trailer_size := trailer_size params in
  if buf_size <? trailer_size
  then (throw (runtime_error "Buffer is too small to read the trailer"), pool)
  else
    match submit pool 0 trailer_size with
    | (inl e, pool) =>
        (throw (StreamError ("Failed to read trailer: " ++ what e)), pool)
    | (inr _, pool) => (ret tt, pool)
    end.

End ReadLeaderTrailer.

End StreamMore.

(** ** Camera.cpp *)

Module CameraClass.

(** [class Camera] of [Camera.h]. *)
Record Camera : Type := MkCamera {
  m_vendorName : string;
  m_modelName : string;
  m_serialNumber : string
}.

(** [Camera::Camera(vendorName, modelName, serialNumber)] *)
Definition Camera_ctor (vendorName modelName serialNumber : string) : Camera :=
  MkCamera vendorName modelName serialNumber.

Definition getVendorName (c : Camera) : string := m_vendorName c.
Definition setVendorName (vendorName : string) (c : Camera) : Camera :=
  MkCamera vendorName (m_modelName c) (m_serialNumber c).

Definition getModelName (c : Camera) : string := m_modelName c.
Definition setModelName (modelName : string) (c : Camera) : Camera :=
  MkCamera (m_vendorName c) modelName (m_serialNumber c).

Definition getSerialNumber (c : Camera) : string := m_serialNumber c.
Definition setSerialNumber (serialNumber : string) (c : Camera) : Camera :=
  MkCamera (m_vendorName c) (m_modelName c) serialNumber.

(** A call of one of the setters, and a sequence of such calls on one
    object. *)
Inductive setter : Type :=
| SetVendorName (vendorName : string)
| SetModelName (modelName : string)
| SetSerialNumber (serialNumber : string).

Definition call_setter (c : Camera) (s : setter) : Camera :=
  match s with
  | SetVendorName v => setVendorName v c
  | SetModelName m => setModelName m c
  | SetSerialNumber n => setSerialNumber n c
  end.

Definition call_setters (c : Camera) (calls : list setter) : Camera :=
  fold_left call_setter calls c.

(** The argument of the last call of each setter in a sequence, or the
    value to start from when the setter is not called. *)
Fixpoint last_vendorName (start : string) (calls : list setter) : string :=
  match calls with
  | [] => start
  | SetVendorName v :: calls' => last_vendorName v calls'
  | _ :: calls' => last_vendorName start calls'
  end.

Fixpoint last_modelName (start : string) (calls : list setter) : string :=
  match calls with
  | [] => start
  | SetModelName m :: calls' => last_modelName m calls'
  | _ :: calls' => last_modelName start calls'
  end.

Fixpoint last_serialNumber (start : string) (calls : list setter) : string :=
  match calls with
  | [] => start
  | SetSerialNumber n :: calls' => last_serialNumber n calls'
  | _ :: calls' => last_serialNumber start calls'
  end.

End CameraClass.

(** ** Sequences of calls on a DeviceControl *)

Module ControlMore.
Import Control.

(** A call of an operation of the interface, and what a call gave. *)
Record call : Type := MkCall { call_type : Type; call_op : Op call_type }.

Record outcome : Type :=
  MkOutcome { outcome_type : Type; outcome_result : result outcome_type }.

(** The calls made one after the other on one object by a caller that
    catches what they throw: the outcomes in order and the object after
    the last call; [None] when a call does not return. *)
Fixpoint run_calls {S : Type} `{DeviceControl S} (calls : list call) (s : S)
  : option (list outcome * S) :=
  match calls with
  | [] => Some ([], s)
  | c :: calls' =>
      match invoke (call_op c) s with
      | None => None
      | Some (r, s') =>
          match run_calls calls' s' with
          | None => None
          | Some (rs, s'') => Some (MkOutcome (call_type c) r :: rs, s'')
          end
      end
  end.

End ControlMore.

(** ** The sample program *)

Module Main.
Import Control.

(** The member functions of [Camera], [Control], [Abrm] and
    [DeviceCapability] that [main] calls; their bodies are not in src.
    Each call acts on the camera that [main] works with. *)
Class CameraOps (C : Type) : Type := {
  Abrm : Type;
  DeviceCapability : Type;
  camera_open : comp C unit;
  ctrl_abrm : comp C Abrm;
  serial_number : Abrm -> comp C string;
  device_capability : Abrm -> comp C DeviceCapability;
  is_user_defined_name_supported : DeviceCapability -> bool;
  user_defined_name : Abrm -> comp C string;
  set_user_defined_name : Abrm -> string -> comp C unit
}.

Section Main.
Context {C : Type} `{CameraOps C}.

(** What [main] acts on: the vector [cameras] and the lines written to
    [cout]. *)
Record world : Type := MkWorld { cameras : list C; cout : list string }.

(** A call on [camera], the reference to [cameras.back()]. *)
Definition on_back {R : Type} (f : comp C R) : comp world R :=
  fun w =>
    match last (cameras w) with
    | None => None
    | Some camera =>
        match f camera with
        | None => None
        | Some (r, camera') =>
            Some (r, MkWorld (removelast (cameras w) ++ [camera']) (cout w))
        end
    end.

(** [cout << s << endl] *)
Definition print (s : string) : comp world unit :=
  fun w => Some (ret tt, MkWorld (cameras w) (cout w ++ [s])).

(** [int main()], from the vector that [enumerateCameras()] returned; an
    exception that a call throws is not caught. *)
Definition main : comp world Z :=
  fun w =>
    match cameras w with
    | [] => Some (ret 0, w)
    | _ :: _ =>
        (_ <- on_back camera_open ;;
         abrm <- on_back ctrl_abrm ;;
         serial <- on_back (serial_number abrm) ;;
         _ <- print serial ;;
         capability <- on_back (device_capability abrm) ;;
         if is_user_defined_name_supported capability
         then
           name <- on_back (user_defined_name abrm) ;;
           _ <- print name ;;
           _ <- on_back (set_user_defined_name abrm "cameleon") ;;
           pure 0
         else pure 0) w
    end.

(** A computation that touches no camera but the last one and only adds
    lines to [cout]: run on a vector ending with a camera, it leaves the
    cameras before that one as they are. *)
Definition keeps_front {R : Type} (m : comp world R) : Prop :=
  forall front camera out r w',
    m (MkWorld (front ++ [camera]) out) = Some (r, w') ->
    exists camera' out', w' = MkWorld (front ++ [camera']) (out ++ out').

End Main.

End Main.

(** ** An in-memory camera for the sample program *)

Module ModelCamera.
Import Control Main.

(** A camera answers from a record: whether it is opened, its serial
    number, whether it supports a user-defined name, and that name. *)
Record camera : Type := MkModelCamera {
  c_opened : bool;
  c_serial : string;
  c_supported : bool;
  c_name : string
}.

#[export] Instance camera_CameraOps : CameraOps camera := {|
  Abrm := unit;
  DeviceCapability := bool;
  camera_open := fun c =>
    Some (ret tt, MkModelCamera true (c_serial c) (c_supported c) (c_name c));
  ctrl_abrm := pure tt;
  serial_number := fun _ c => Some (ret (c_serial c), c);
  device_capability := fun _ c => Some (ret (c_supported c), c);
  is_user_defined_name_supported := fun b => b;
  user_defined_name := fun _ c => Some (ret (c_name c), c);
  set_user_defined_name := fun _ name c =>
    Some (ret tt, MkModelCamera (c_opened c) (c_serial c) (c_supported c) name)
|}.

End ModelCamera.

(** * Properties *)

(** ** Arithmetic of powers of two and bitwise or *)

Section Pow2.

Lemma lor_mod_pow2 (a b n : Z) :
  0 <= n -> Z.lor a b mod 2 ^ n = Z.lor (a mod 2 ^ n) (b mod 2 ^ n).
Proof.
  intros Hn. rewrite <- !Z.land_ones by lia. apply Z.land_lor_distr_l.
Qed.

Lemma mod_mod_pow2 (a m n : Z) :
  0 <= m <= n -> (a mod 2 ^ n) mod 2 ^ m = a mod 2 ^ m.
Proof.
  intros H. apply Z.mod_mod_divide.
  exists (2 ^ (n - m)). rewrite <- Z.pow_add_r by lia. f_equal. lia.
Qed.

(** Or-ing the next byte of [x] above its low [k] bits gives its low
    [k + 8] bits. *)
Lemma lor_next_byte (x k : Z) :
  0 <= k ->
  Z.lor (x mod 2 ^ k) (((x / 2 ^ k) mod 2 ^ 8) * 2 ^ k) = x mod 2 ^ (k + 8).
Proof.
  intros Hk. apply Z.bits_inj'. intros n Hn.
  rewrite Z.lor_spec, Z.mul_pow2_bits by lia.
  destruct (Z_lt_dec n k) as [Hlt|Hge].
  - rewrite (Z.testbit_neg_r _ (n - k)) by lia.
    rewrite !Z.mod_pow2_bits_low by lia. apply orb_false_r.
  - rewrite (Z.mod_pow2_bits_high x k n) by lia. simpl.
    destruct (Z_lt_dec n (k + 8)).
    + rewrite !Z.mod_pow2_bits_low by lia.
      rewrite Z.div_pow2_bits by lia. f_equal. lia.
    + rewrite !Z.mod_pow2_bits_high by lia. reflexivity.
Qed.

Lemma pow2_pos (n : Z) : 0 <= n -> 0 < 2 ^ n.
Proof. intros. apply Z.pow_pos_nonneg; lia. Qed.

Lemma pow2_double (n : Z) : 0 < n -> 2 ^ n = 2 * 2 ^ (n - 1).
Proof.
  intros. replace n with (Z.succ (n - 1)) at 1 by lia.
  apply Z.pow_succ_r. lia.
Qed.

End Pow2.

(** ** Conversions between integer types *)

Module IntegerTypesFacts.

Lemma bits_nonneg (T : IntType) : 0 <= bits T.
Proof. unfold bits. lia. Qed.

Lemma register_width_bits (T : IntType) : register_width T -> 8 <= bits T.
Proof. unfold register_width, bits. lia. Qed.

(** A conversion does not change the value modulo [2^bits]. *)
Lemma static_cast_mod (T : IntType) (z : Z) :
  static_cast T z mod 2 ^ bits T = z mod 2 ^ bits T.
Proof.
  unfold static_cast. destruct (is_signed T).
  - rewrite Zminus_mod_idemp_l. f_equal. lia.
  - pose proof (bits_nonneg T). apply Z.mod_mod.
    pose proof (pow2_pos (bits T)). lia.
Qed.

Lemma static_cast_representable (T : IntType) (z : Z) :
  0 < bits T -> representable T (static_cast T z).
Proof.
  intros Hb. unfold static_cast, representable.
  pose proof (pow2_pos (bits T)) as Hp.
  pose proof (pow2_double (bits T) Hb) as Hd.
  destruct (is_signed T).
  - pose proof (Z.mod_pos_bound (z + 2 ^ (bits T - 1)) (2 ^ bits T)). lia.
  - apply Z.mod_pos_bound. lia.
Qed.

(** Two values of [T] that agree modulo [2^bits] are equal. *)
Lemma representable_inj (T : IntType) (a b : Z) :
  0 < bits T -> representable T a -> representable T b ->
  a mod 2 ^ bits T = b mod 2 ^ bits T -> a = b.
Proof.
  unfold representable. intros Hb Ha Hrb Hm.
  pose proof (pow2_double (bits T) Hb) as Hd.
  destruct (is_signed T).
  - assert (H : (a + 2 ^ (bits T - 1)) mod 2 ^ bits T
                = (b + 2 ^ (bits T - 1)) mod 2 ^ bits T).
    { rewrite <- (Zplus_mod_idemp_l a), <- (Zplus_mod_idemp_l b), Hm.
      reflexivity. }
    rewrite !Z.mod_small in H by lia. lia.
  - rewrite !Z.mod_small in Hm by lia. exact Hm.
Qed.

Lemma representable_cast (T : IntType) (z : Z) :
  0 < bits T -> representable T z -> static_cast T z = z.
Proof.
  intros Hb Hz. apply (representable_inj T); auto.
  - apply static_cast_representable; auto.
  - apply static_cast_mod.
Qed.

Lemma bits_promote (T : IntType) : bits T <= bits (promote T).
Proof.
  unfold promote, bits.
  destruct (Nat.ltb_spec (sizeof T) (sizeof int)); simpl in *; lia.
Qed.

(** Converting to the promoted type is invisible modulo [2^bits T]. *)
Lemma static_cast_promote_mod (T : IntType) (z : Z) :
  static_cast (promote T) z mod 2 ^ bits T = z mod 2 ^ bits T.
Proof.
  pose proof (bits_promote T). pose proof (bits_nonneg T).
  rewrite <- (mod_mod_pow2 (static_cast (promote T) z) (bits T) (bits (promote T))) by lia.
  rewrite static_cast_mod. apply mod_mod_pow2. lia.
Qed.

End IntegerTypesFacts.

(** ** Numeric registers: [dumpBytes] followed by [ParseBytes] *)

Module RegisterMapFacts.
Import RegisterMap IntegerTypesFacts.

(** The loop of [dumpBytes], run for its first [n] iterations. *)
Lemma dumpBytes_loop_length (value : Z) (n : nat) (buf : buffer) :
  length (fold_left (dumpBytes_step value) (seq 0 n) buf) = length buf.
Proof.
  induction n as [|n IH]; [reflexivity|].
  rewrite seq_S, fold_left_app. simpl. unfold dumpBytes_step at 1.
  rewrite length_insert. exact IH.
Qed.

Lemma dumpBytes_loop_load (value : Z) (n : nat) (buf : buffer) (i : nat) :
  (n <= length buf)%nat ->
  load (fold_left (dumpBytes_step value) (seq 0 n) buf) i
  = if (i <? n)%nat
    then static_cast uint8_t (Z.shiftr value (Z.of_nat i * 8))
    else load buf i.
Proof.
  unfold load. induction n as [|n IH]; intros Hn; [reflexivity|].
  rewrite seq_S, fold_left_app. simpl. unfold dumpBytes_step at 1.
  set (b := fold_left _ _ _) in *.
  assert (Hlen : length b = length buf) by apply dumpBytes_loop_length.
  destruct (Nat.eq_dec i n) as [->|Hne].
  - rewrite (proj2 (Nat.ltb_lt n (S n))) by lia.
    apply nth_lookup_Some. apply list_lookup_insert_eq. lia.
  - rewrite !nth_lookup, list_lookup_insert_ne by auto.
    rewrite <- !nth_lookup, IH by lia.
    destruct (Nat.ltb_spec i n), (Nat.ltb_spec i (S n)); try lia; reflexivity.
Qed.

Lemma dumpBytes_length (T : IntType) (value : Z) (buf : buffer) :
  length (dumpBytes T value buf) = length buf.
Proof. apply dumpBytes_loop_length. Qed.

(** Byte [i] of the dump is byte [i] of the value, least significant
    first. *)
Lemma dumpBytes_load (T : IntType) (value : Z) (buf : buffer) (i : nat) :
  (sizeof T <= length buf)%nat -> (i < sizeof T)%nat ->
  load (dumpBytes T value buf) i = (value / 2 ^ (8 * Z.of_nat i)) mod 2 ^ 8.
Proof.
  intros Hlen Hi. unfold dumpBytes. rewrite dumpBytes_loop_load by exact Hlen.
  rewrite (proj2 (Nat.ltb_lt _ _) Hi).
  unfold static_cast. simpl. rewrite Z.shiftr_div_pow2 by lia.
  change (bits uint8_t) with 8. rewrite (Z.mul_comm (Z.of_nat i)).
  reflexivity.
Qed.

Lemma dumpBytes_untouched (T : IntType) (value : Z) (buf : buffer) (i : nat) :
  (sizeof T <= length buf)%nat -> (sizeof T <= i)%nat ->
  load (dumpBytes T value buf) i = load buf i.
Proof.
  intros Hlen Hi. unfold dumpBytes. rewrite dumpBytes_loop_load by exact Hlen.
  destruct (Nat.ltb_spec i (sizeof T)); [lia | reflexivity].
Qed.

(** Loop invariant of [ParseBytes] on a buffer that holds the
    little-endian bytes of [x]: after [n] iterations the result agrees
    with the low [8 n] bits of [x]. *)
Lemma ParseBytes_loop_mod (T : IntType) (x : Z) (bytes : buffer) (n : nat) :
  (n <= sizeof T)%nat ->
  (forall i, (i < sizeof T)%nat ->
             load bytes i = (x / 2 ^ (8 * Z.of_nat i)) mod 2 ^ 8) ->
  fold_left (ParseBytes_step T bytes) (seq 0 n) 0 mod 2 ^ bits T
  = x mod 2 ^ (8 * Z.of_nat n).
Proof.
  intros Hn Hbytes. induction n as [|n IH].
  - simpl. rewrite Z.mod_1_r. apply Z.mod_0_l.
    pose proof (pow2_pos (bits T) (bits_nonneg T)). lia.
  - rewrite seq_S, fold_left_app. simpl.
    set (r := fold_left _ _ _) in *.
    unfold ParseBytes_step.
    pose proof (bits_nonneg T) as Hb.
    assert (Hk : 8 * Z.of_nat n + 8 <= bits T) by (unfold bits; lia).
    rewrite static_cast_mod, lor_mod_pow2, static_cast_promote_mod by lia.
    rewrite IH by lia.
    rewrite Z.shiftl_mul_pow2 by lia.
    rewrite <- Zmult_mod_idemp_l, static_cast_mod, Zmult_mod_idemp_l.
    rewrite Hbytes by lia.
    set (b := (x / 2 ^ (8 * Z.of_nat n)) mod 2 ^ 8).
    assert (Hbr : 0 <= b < 2 ^ 8) by (apply Z.mod_pos_bound; lia).
    assert (Hsmall : 0 <= b * 2 ^ (8 * Z.of_nat n) < 2 ^ bits T).
    { pose proof (pow2_pos (8 * Z.of_nat n)) as Hp.
      assert (2 ^ (8 * Z.of_nat n + 8) <= 2 ^ bits T)
        by (apply Z.pow_le_mono_r; lia).
      rewrite Z.pow_add_r in * by lia. nia. }
    rewrite (Z.mod_small (b * _)) by exact Hsmall.
    subst b. rewrite lor_next_byte by lia.
    f_equal. f_equal. lia.
Qed.

Lemma ParseBytes_representable (T : IntType) (bytes : buffer) :
  (0 < sizeof T)%nat -> representable T (ParseBytes T bytes).
Proof.
  intros Hs. unfold ParseBytes.
  destruct (sizeof T) as [|n] eqn:E; [lia|].
  rewrite seq_S, fold_left_app. simpl. unfold ParseBytes_step at 1.
  apply static_cast_representable. unfold bits. lia.
Qed.

(** C1.  For an integral type [T] of width 8, 16, 32 or 64 bits, signed
    or unsigned, and every value [x] of [T]: dumping [x] into a buffer
    of at least [sizeof T] bytes with [dumpBytes] and parsing the buffer
    back with [ParseBytes] yields [x]; byte [i] of the dump is
    [x / 2^(8 i) mod 256], the little-endian order, and bytes of the
    buffer past [sizeof T] are left alone. *)
Theorem ParseBytes_dumpBytes (T : IntType) (x : Z) (buf : buffer) :
  register_width T -> representable T x -> (sizeof T <= length buf)%nat ->
  ParseBytes T (dumpBytes T x buf) = x
  /\ (forall i, (i < sizeof T)%nat ->
        load (dumpBytes T x buf) i = (x / 2 ^ (8 * Z.of_nat i)) mod 2 ^ 8)
  /\ (forall i, (sizeof T <= i)%nat ->
        load (dumpBytes T x buf) i = load buf i).
Proof.
  intros HT Hx Hlen.
  pose proof (register_width_bits T HT) as Hb.
  assert (Hs : (0 < sizeof T)%nat) by (unfold bits in Hb; lia).
  split; [|split].
  - apply (representable_inj T); try lia; auto.
    + apply ParseBytes_representable; exact Hs.
    + unfold ParseBytes.
      rewrite (ParseBytes_loop_mod T x) by (auto using dumpBytes_load).
      reflexivity.
  - intros i Hi. apply dumpBytes_load; assumption.
  - intros i Hi. apply dumpBytes_untouched; assumption.
Qed.

Lemma ParseBytes_dumpBytes_witness :
  ParseBytes int32_t (dumpBytes int32_t (-2) [0; 0; 0; 0; 7]) = -2
  /\ ParseBytes uint16_t (dumpBytes uint16_t 0xBEEF [0; 0]) = 0xBEEF.
Proof.
  split.
  - apply (ParseBytes_dumpBytes int32_t (-2) [0; 0; 0; 0; 7]).
    + right. right. left. reflexivity.
    + vm_compute. split; congruence.
    + simpl. lia.
  - apply (ParseBytes_dumpBytes uint16_t 0xBEEF [0; 0]).
    + right. left. reflexivity.
    + vm_compute. split; congruence.
    + simpl. lia.
Defined.

End RegisterMapFacts.

(** ** The bus speed register *)

Module BusSpeedFacts.
Import RegisterMap IntegerTypesFacts.

(** Or-ing a value shifted above [a] adds it. *)
Lemma lor_disjoint (a b k : Z) :
  0 <= k -> 0 <= a < 2 ^ k -> Z.lor a (b * 2 ^ k) = a + b * 2 ^ k.
Proof.
  intros Hk Ha.
  assert (Hland : Z.land a (b * 2 ^ k) = 0).
  { apply Z.bits_inj'. intros n Hn.
    rewrite Z.land_spec, Z.bits_0, Z.mul_pow2_bits by lia.
    destruct (Z_lt_dec n k).
    - rewrite (Z.testbit_neg_r b) by lia. apply andb_false_r.
    - rewrite <- (Z.mod_small a (2 ^ k)) by lia.
      rewrite Z.mod_pow2_bits_high by lia. reflexivity. }
  rewrite <- Z.lxor_lor by exact Hland.
  symmetry. apply Z.add_nocarry_lxor. exact Hland.
Qed.

Lemma le_u32_range (b0 b1 b2 b3 : Z) :
  is_byte b0 -> is_byte b1 -> is_byte b2 -> is_byte b3 ->
  0 <= le_u32 b0 b1 b2 b3 < 2 ^ 32.
Proof. unfold is_byte, le_u32. lia. Qed.

(** Every u32 is the value of four bytes. *)
Lemma le_u32_onto (v : Z) :
  0 <= v < 2 ^ 32 ->
  exists b0 b1 b2 b3,
    is_byte b0 /\ is_byte b1 /\ is_byte b2 /\ is_byte b3
    /\ le_u32 b0 b1 b2 b3 = v.
Proof.
  intros Hv.
  exists (v mod 2 ^ 8), (v / 2 ^ 8 mod 2 ^ 8), (v / 2 ^ 16 mod 2 ^ 8),
    (v / 2 ^ 24).
  unfold is_byte, le_u32. change (2 ^ 8) with 256.
  change (2 ^ 16) with 65536. change (2 ^ 24) with 16777216.
  change (2 ^ 32) with 4294967296 in Hv.
  repeat split; try (apply Z.mod_pos_bound; lia);
    Z.to_euclidean_division_equations; lia.
Qed.

(** The primary template at [uint32_t] reads the buffer's first four
    bytes as a little-endian number. *)
Lemma parse_bytes_uint32_t (b0 b1 b2 b3 : Z) (rest : buffer) :
  is_byte b0 -> is_byte b1 -> is_byte b2 -> is_byte b3 ->
  parse_bytes uint32_t (b0 :: b1 :: b2 :: b3 :: rest) = le_u32 b0 b1 b2 b3.
Proof.
  unfold is_byte. intros H0 H1 H2 H3.
  unfold parse_bytes, load. cbn [nth].
  rewrite !Z.shiftl_mul_pow2 by lia.
  assert (Hint : forall z, - 2 ^ 31 <= z < 2 ^ 31 -> static_cast int z = z).
  { intros z Hz. apply representable_cast; [reflexivity | exact Hz]. }
  rewrite (Hint (b1 * 2 ^ 8)), (Hint (b2 * 2 ^ 16)) by lia.
  rewrite (lor_disjoint b0 b1 8) by lia.
  rewrite (lor_disjoint _ b2 16) by lia.
  unfold static_cast at 1. cbn [is_signed uint32_t].
  change (bits uint32_t) with 32.
  rewrite lor_mod_pow2 by lia.
  change 32 with (bits int) at 2. rewrite static_cast_mod.
  change (bits int) with 32.
  rewrite !Z.mod_small by lia.
  rewrite lor_disjoint by lia. reflexivity.
Qed.

(** What the [switch] returns for a raw value. *)
Lemma parse_bytes_BusSpeed_raw (bytes : buffer) (raw : Z) :
  parse_bytes uint32_t bytes = raw ->
  (raw = 1 -> parse_bytes_BusSpeed bytes = ret LowSpeed)
  /\ (raw = 2 -> parse_bytes_BusSpeed bytes = ret FullSpeed)
  /\ (raw = 4 -> parse_bytes_BusSpeed bytes = ret HighSpeed)
  /\ (raw = 8 -> parse_bytes_BusSpeed bytes = ret SuperSpeed)
  /\ (raw = 16 -> parse_bytes_BusSpeed bytes = ret SuperSpeedPlus)
  /\ (raw <> 1 -> raw <> 2 -> raw <> 4 -> raw <> 8 -> raw <> 16 ->
      parse_bytes_BusSpeed bytes
      = throw (ControlError "invalid bus speed defined")).
Proof.
  intros Hraw. unfold parse_bytes_BusSpeed. rewrite Hraw.
  repeat split; try (intros ->; reflexivity).
  intros N1 N2 N4 N8 N16.
  destruct raw as [|p|p]; try reflexivity.
  do 5 (destruct p as [p|p|]; try reflexivity; try congruence).
Qed.

(** C2.  Applied to four bytes holding a little-endian u32, the bus
    speed parser returns LowSpeed for 0x1, FullSpeed for 0x2, HighSpeed
    for 0x4, SuperSpeed for 0x8 and SuperSpeedPlus for 0x10; every
    enumerator is reached; and for every other u32 it returns no value
    but throws the [ControlError] whose text is
    "invalid bus speed defined", which starts with "invalid bus speed". *)
Theorem parse_bytes_BusSpeed_u32 (b0 b1 b2 b3 : Z) (rest : buffer) :
  is_byte b0 -> is_byte b1 -> is_byte b2 -> is_byte b3 ->
  let raw := le_u32 b0 b1 b2 b3 in
  let parsed := parse_bytes_BusSpeed (b0 :: b1 :: b2 :: b3 :: rest) in
  (raw = 0x1 -> parsed = ret LowSpeed)
  /\ (raw = 0x2 -> parsed = ret FullSpeed)
  /\ (raw = 0x4 -> parsed = ret HighSpeed)
  /\ (raw = 0x8 -> parsed = ret SuperSpeed)
  /\ (raw = 0x10 -> parsed = ret SuperSpeedPlus)
  /\ (raw <> 0x1 -> raw <> 0x2 -> raw <> 0x4 -> raw <> 0x8 -> raw <> 0x10 ->
      parsed = throw (ControlError "invalid bus speed defined")
      /\ String.prefix "invalid bus speed"
           (what (ControlError "invalid bus speed defined")) = true)
  /\ (forall s : BusSpeed,
        parse_bytes_BusSpeed (BusSpeed_value s :: 0 :: 0 :: 0 :: rest) = ret s).
Proof.
  intros H0 H1 H2 H3 raw parsed.
  destruct (parse_bytes_BusSpeed_raw (b0 :: b1 :: b2 :: b3 :: rest) raw)
    as (R1 & R2 & R4 & R8 & R16 & Rother).
  { apply parse_bytes_uint32_t; assumption. }
  repeat split; auto.
  intros []; reflexivity.
Qed.

Lemma parse_bytes_BusSpeed_u32_witness :
  parse_bytes_BusSpeed [0x8; 0; 0; 0] = ret SuperSpeed
  /\ parse_bytes_BusSpeed [0x3; 0; 0; 0]
     = throw (ControlError "invalid bus speed defined").
Proof.
  assert (Hb : forall b, (0 <=? b) && (b <? 256) = true -> is_byte b).
  { unfold is_byte. intros b Hb. apply andb_prop in Hb. lia. }
  destruct (parse_bytes_BusSpeed_u32 0x8 0 0 0 []
              (Hb 8 eq_refl) (Hb 0 eq_refl) (Hb 0 eq_refl) (Hb 0 eq_refl))
    as (_ & _ & _ & H8 & _).
  destruct (parse_bytes_BusSpeed_u32 0x3 0 0 0 []
              (Hb 3 eq_refl) (Hb 0 eq_refl) (Hb 0 eq_refl) (Hb 0 eq_refl))
    as (_ & _ & _ & _ & _ & Hother & _).
  split.
  - apply H8. reflexivity.
  - apply Hother; discriminate.
Defined.

End BusSpeedFacts.

(** ** Camera enumeration and error conversion *)

Module U3VFacts.
Import U3V.

Section Enumerate.
Context `{Handles}.

(** The loop body keeps the cameras built so far and appends at most the
    camera of the device at hand. *)
Lemma enumerateCameras_body_app (cameras : list Camera) (dev : DeviceInfo) :
  enumerateCameras_body cameras dev
  = cameras ++ (if usable dev then [camera_of dev] else []).
Proof.
  unfold enumerateCameras_body, usable, camera_of.
  destruct (ControlHandle_isValid (ControlHandle_ctor dev)); simpl.
  - destruct (StreamHandle_isValid (StreamHandle_ctor dev)); simpl.
    + reflexivity.
    + symmetry. apply app_nil_r.
  - symmetry. apply app_nil_r.
Qed.

Lemma enumerateCameras_loop (devices : list DeviceInfo) (cameras : list Camera) :
  fold_left enumerateCameras_body devices cameras
  = cameras ++ map camera_of (List.filter usable devices).
Proof.
  revert cameras. induction devices as [|dev devices IH]; intros cameras.
  - simpl. symmetry. apply app_nil_r.
  - cbn [fold_left List.filter]. rewrite IH, enumerateCameras_body_app.
    destruct (usable dev); cbn [map].
    + rewrite <- app_assoc. reflexivity.
    + rewrite app_nil_r. reflexivity.
Qed.

(** C3.  For every sequence of enumerated devices the enumeration returns,
    in enumeration order, exactly the cameras of the devices whose control
    handle and stream handle are both valid; any other device is skipped;
    the function has no failing path of its own, so the result is always a
    sequence; and with no device it is the empty sequence. *)
Theorem enumerateCameras_filter (devices : list DeviceInfo) :
  enumerateCameras devices = map camera_of (List.filter usable devices)
  /\ enumerateCameras [] = []
  /\ (forall before dev after, devices = before ++ dev :: after ->
        enumerateCameras devices
        = enumerateCameras before
          ++ (if usable dev then [camera_of dev] else [])
          ++ enumerateCameras after).
Proof.
  assert (E : forall ds, enumerateCameras ds
                         = map camera_of (List.filter usable ds)).
  { intros ds. unfold enumerateCameras. apply enumerateCameras_loop. }
  split; [apply E|]. split; [reflexivity|].
  intros before dev after ->. rewrite !E.
  rewrite List.filter_app, map_app. cbn [List.filter].
  destruct (usable dev); reflexivity.
Qed.

End Enumerate.

(** What the conversion returns, by error type. *)
Lemma convertToControlError_cases (err : Error) :
  convertToControlError err
  = Some (match type err with
          | LibUsb | BufferIo | InvalidPacket =>
              MkControlError ControlErrorType.Io (what err)
          | InvalidDevice =>
              MkControlError ControlErrorType.InvalidDevice "invalid device"
          end).
Proof.
  unfold convertToControlError. destruct (type err); reflexivity.
Qed.

(** C4, as the code has it.  The conversion always returns; it maps the
    transport failures ([LibUsb], [BufferIo]) to the [Io] kind and
    [InvalidDevice] to the [InvalidDevice] kind, and it maps
    [ErrorType::InvalidPacket] to the [Io] kind as well, each [Io] result
    carrying the text of the error it converts. *)
Theorem convertToControlError_kind (err : Error) :
  exists c, convertToControlError err = Some c
    /\ (type err = LibUsb \/ type err = BufferIo ->
        kind c = ControlErrorType.Io /\ message c = what err)
    /\ (type err = InvalidPacket ->
        kind c = ControlErrorType.Io /\ message c = what err)
    /\ (type err = InvalidDevice ->
        kind c = ControlErrorType.InvalidDevice
        /\ message c = "invalid device"%string).
Proof.
  eexists. split; [apply convertToControlError_cases|].
  destruct (type err); repeat split; intros; simpl;
    try reflexivity; try discriminate; intuition discriminate.
Qed.

(** C4 as stated fails: a protocol-level [InvalidPacket] error is
    converted to the [Io] kind, not to the [InvalidPacket] kind. *)
Lemma convertToControlError_InvalidPacket_is_Io :
  let err := MkError InvalidPacket "request id mismatch" in
  convertToControlError err
  = Some (MkControlError ControlErrorType.Io "request id mismatch")
  /\ ~ (exists m, convertToControlError err
                  = Some (MkControlError ControlErrorType.InvalidPacket m)).
Proof.
  split; [reflexivity|]. intros [m Hm]. discriminate Hm.
Qed.

End U3VFacts.

(** ** Connection configuration *)

Module ConfigFacts.
Import Config Session.

(** C8.  A freshly constructed [ConnectionConfig] has the initial timeout
    of 500 ms, a retry count of 3, and maximum command and acknowledge
    lengths of the initial 128 bytes.  These hold for every new
    [ControlHandle] session before the device's bootstrap registers are
    read: the session of any device is created in CREATED, not opened,
    owning a configuration with exactly these values; they are replaced
    when [open] reads the bootstrap registers, by the values read there
    (the retry count stays 3). *)
Theorem ControlHandle_ctor_initial (dev : U3V.DeviceInfo) :
  (timeout_duration ConnectionConfig_ctor = 500
   /\ timeout_duration ConnectionConfig_ctor = INITIAL_TIMEOUT_DURATION
   /\ retry_count ConnectionConfig_ctor = 3
   /\ maximum_cmd_length ConnectionConfig_ctor = 128
   /\ maximum_cmd_length ConnectionConfig_ctor = INITIAL_MAXIMUM_CMD_LENGTH
   /\ maximum_ack_length ConnectionConfig_ctor = 128
   /\ maximum_ack_length ConnectionConfig_ctor = INITIAL_MAXIMUM_ACK_LENGTH)
  /\ (state (ControlHandle_ctor dev) = CREATED
      /\ is_opened (ControlHandle_ctor dev) = false
      /\ config (ControlHandle_ctor dev) = ConnectionConfig_ctor
      /\ timeout_duration (config (ControlHandle_ctor dev)) = 500
      /\ retry_count (config (ControlHandle_ctor dev)) = 3
      /\ maximum_cmd_length (config (ControlHandle_ctor dev)) = 128
      /\ maximum_ack_length (config (ControlHandle_ctor dev)) = 128)
  /\ (forall regs : Bootstrap,
        exists h,
          open regs (ControlHandle_ctor dev) = Some h
          /\ is_opened h = true
          /\ timeout_duration (config h) = maximum_device_response_time regs
          /\ retry_count (config h) = 3
          /\ maximum_cmd_length (config h) = sbrm_maximum_cmd_length regs
          /\ maximum_ack_length (config h) = sbrm_maximum_ack_length regs).
Proof.
  split; [repeat split|]. split; [repeat split|].
  intros regs. eexists. split; [reflexivity|]. repeat split.
Qed.

End ConfigFacts.

(** ** String registers *)

Module StringRegisterFacts.
Import RegisterMap.

Lemma memcpy_length (dst src : buffer) (n : nat) :
  (n <= length src)%nat -> (n <= length dst)%nat ->
  length (memcpy dst src n) = length dst.
Proof.
  intros Hs Hd. unfold memcpy.
  rewrite length_app, length_take, length_drop. lia.
Qed.

(** The text of a slot that holds a string without a zero byte, followed
    by a zero byte or by the end of the slot, is the string. *)
Lemma until_zero_terminated (s rest : buffer) :
  Forall (fun b => b <> 0) s ->
  rest = [] \/ (exists rest', rest = 0 :: rest') ->
  until_zero (s ++ rest) = s.
Proof.
  intros Hs Hrest. induction Hs as [|b s Hb Hs IH]; simpl.
  - destruct Hrest as [->|[rest' ->]]; reflexivity.
  - destruct (Z.eqb_spec b 0); [contradiction|]. rewrite IH. reflexivity.
Qed.

(** No byte of an ASCII text is replaced. *)
Lemma decode_ascii_valid (replacement : std_string) (text : buffer) :
  Forall (fun b => is_ascii b = true) text ->
  decode_ascii replacement text = text.
Proof.
  intros Ha. unfold decode_ascii.
  induction Ha as [|b text Hb Ha IH]; simpl; [reflexivity|].
  rewrite Hb, IH. reflexivity.
Qed.

(** An ASCII text is well-formed UTF-8. *)
Lemma ascii_well_formed_utf8 (text : buffer) :
  Forall (fun b => is_ascii b = true) text ->
  well_formed_utf8 text = true.
Proof.
  intros Ha. induction Ha as [|b text Hb Ha IH]; simpl; [reflexivity|].
  rewrite Hb. exact IH.
Qed.

(** Decoding a slot whose text is [s]. *)
Lemma decode_string_text (utf8 : bool) (replacement : std_string)
  (slot : buffer) (s : std_string) :
  until_zero slot = s ->
  (if utf8 then well_formed_utf8 s = true
   else Forall (fun b => is_ascii b = true) s) ->
  decode_string utf8 replacement slot = Some s.
Proof.
  intros Htext Hvalid. unfold decode_string. rewrite Htext.
  destruct utf8.
  - rewrite Hvalid. reflexivity.
  - rewrite decode_ascii_valid by exact Hvalid. reflexivity.
Qed.

(** The buffer after a dump that fits: the string, then a zero byte when
    there is room for one, then the old contents. *)
Lemma dumpBytes_string_fits (str : std_string) (buf : buffer) :
  (length str <= length buf)%nat ->
  dumpBytes_string str buf (length buf)
  = (ret tt,
     str ++ (if (length str <? length buf)%nat
             then 0 :: drop (S (length str)) buf
             else [])).
Proof.
  intros Hfit. unfold dumpBytes_string, memcpy.
  destruct (Nat.ltb_spec (length buf) (length str)) as [|_]; [lia|].
  rewrite firstn_all.
  destruct (Nat.ltb_spec (length str) (length buf)) as [Hlt|Hge].
  - f_equal. rewrite insert_app_r_alt by lia. rewrite Nat.sub_diag.
    destruct (drop (length str) buf) as [|b rest] eqn:E.
    + apply (f_equal length) in E. rewrite length_drop in E. simpl in E. lia.
    + simpl. do 2 f_equal.
      replace (S (length str)) with (length str + 1)%nat by lia.
      rewrite <- drop_drop, E. reflexivity.
  - rewrite drop_ge by lia. reflexivity.
Qed.

(** C7, as the code has it.  For every string [s] and slot of [W] bytes:
    if [|s| > W] the dump throws "too large string" and leaves the slot
    as it was; if [|s| <= W] the slot receives the bytes of [s], followed
    by a zero byte whenever [|s| < W], the bytes after that one being left
    alone; and decoding the slot (stopping at the first zero byte)
    recovers [s] when [s] holds no zero byte and is text in the encoding
    the decoder uses: ASCII bytes only when the UTF-8 capability bit is
    clear, well-formed UTF-8 when it is set. *)
Theorem dumpBytes_string_spec (s : std_string) (buf : buffer) (W : nat) :
  length buf = W ->
  ((W < length s)%nat ->
     dumpBytes_string s buf W = (throw (runtime_error "too large string"), buf))
  /\ ((length s <= W)%nat ->
      exists buf',
        dumpBytes_string s buf W = (ret tt, buf')
        /\ length buf' = W
        /\ take (length s) buf' = s
        /\ ((length s < W)%nat -> buf' !! length s = Some 0)
        /\ drop (S (length s)) buf' = drop (S (length s)) buf
        /\ (Forall (fun b => b <> 0) s ->
            forall (utf8 : bool) (replacement : std_string),
              (if utf8 then well_formed_utf8 s = true
               else Forall (fun b => is_ascii b = true) s) ->
              decode_string utf8 replacement buf' = Some s)).
Proof.
  intros <-. split.
  - intros Hbig. unfold dumpBytes_string.
    destruct (Nat.ltb_spec (length buf) (length s)); [reflexivity | lia].
  - intros Hfit. eexists. split; [apply dumpBytes_string_fits; exact Hfit|].
    destruct (Nat.ltb_spec (length s) (length buf)) as [Hlt|Hge].
    + repeat split.
      * rewrite length_app. cbn [length]. rewrite length_drop. lia.
      * rewrite take_app_length. reflexivity.
      * intros _. rewrite lookup_app_r by lia. rewrite Nat.sub_diag.
        reflexivity.
      * replace (S (length s)) with (length s + 1)%nat at 1 by lia.
        rewrite <- drop_drop, drop_app_length. reflexivity.
      * intros Hnz utf8 replacement Hvalid.
        apply decode_string_text; [|exact Hvalid].
        apply until_zero_terminated; eauto.
    + repeat split.
      * rewrite app_nil_r. lia.
      * rewrite app_nil_r. apply firstn_all.
      * intros Hlt. lia.
      * rewrite !drop_ge; [reflexivity | lia | rewrite app_nil_r; lia].
      * intros Hnz utf8 replacement Hvalid.
        apply decode_string_text; [|exact Hvalid].
        apply until_zero_terminated; auto.
Qed.

Lemma dumpBytes_string_spec_witness :
  exists buf',
    dumpBytes_string [83; 78; 48] [9; 9; 9; 9; 9] 5 = (ret tt, buf')
    /\ length buf' = 5%nat
    /\ take 3 buf' = [83; 78; 48]
    /\ buf' !! 3%nat = Some 0
    /\ drop 4 buf' = [9]
    /\ decode_string false [63] buf' = Some [83; 78; 48]
    /\ decode_string true [63] buf' = Some [83; 78; 48].
Proof.
  destruct (dumpBytes_string_spec [83; 78; 48] [9; 9; 9; 9; 9] 5 eq_refl)
    as [_ Hfit].
  destruct Hfit as (buf' & Hdump & Hlen & Htake & Hzero & Hdrop & Hdecode);
    [simpl; lia|].
  assert (Hnz : Forall (fun b => b <> 0) [83; 78; 48])
    by (repeat constructor; lia).
  exists buf'. repeat split; try assumption.
  - apply Hzero. simpl. lia.
  - apply (Hdecode Hnz false [63]). repeat constructor.
  - apply (Hdecode Hnz true [63]). reflexivity.
Defined.

(** C7 as stated fails for a string that holds a zero byte: it fits the
    slot, and decoding the dumped slot stops inside it, whatever the
    encoding.  It also fails for a string that is not text in the
    decoder's encoding: with the capability bit clear the byte FF is
    replaced (here by U+FFFD, EF BF BD), with the bit set it is not
    well-formed UTF-8. *)
Lemma dumpBytes_string_not_recovered :
  let s := [97; 0; 98] in
  let slot := [0; 0; 0; 0] in
  let replacement := [0xEF; 0xBF; 0xBD] in
  ((length s <= length slot)%nat
   /\ dumpBytes_string s slot 4 = (ret tt, [97; 0; 98; 0])
   /\ (forall utf8 r,
         decode_string utf8 r (snd (dumpBytes_string s slot 4)) = Some [97])
   /\ (forall utf8 r,
         decode_string utf8 r (snd (dumpBytes_string s slot 4)) <> Some s))
  /\ (dumpBytes_string [0xFF] slot 4 = (ret tt, [0xFF; 0; 0; 0])
      /\ decode_string false replacement (snd (dumpBytes_string [0xFF] slot 4))
         = Some replacement
      /\ decode_string false replacement (snd (dumpBytes_string [0xFF] slot 4))
         <> Some [0xFF]
      /\ decode_string true replacement (snd (dumpBytes_string [0xFF] slot 4))
         = None).
Proof.
  assert (H97 : forall utf8 r,
             decode_string utf8 r [97; 0; 98; 0] = Some [97]).
  { intros [|] r; reflexivity. }
  cbv zeta. split.
  - split; [simpl; lia|]. split; [reflexivity|]. split.
    + intros utf8 r. apply H97.
    + intros utf8 r. cbn [snd dumpBytes_string]. 
      change (snd (dumpBytes_string [97; 0; 98] [0; 0; 0; 0] 4))
        with [97; 0; 98; 0].
      rewrite H97. discriminate.
  - repeat split; discriminate.
Qed.

End StringRegisterFacts.

(** ** Payload reads *)

Module StreamFacts.
Import Config Stream IntegerTypesFacts.

Lemma size_t_small (z : Z) : 0 <= z < 2 ^ 64 -> static_cast size_t z = z.
Proof. intros Hz. apply representable_cast; [reflexivity | exact Hz]. Qed.

Lemma size_add_small (a b : Z) : 0 <= a + b < 2 ^ 64 -> size_add a b = a + b.
Proof. apply size_t_small. Qed.

Lemma size_mul_small (a b : Z) : 0 <= a * b < 2 ^ 64 -> size_mul a b = a * b.
Proof. apply size_t_small. Qed.

(** Without wrap-around the maximum payload size is the sum it is
    written as. *)
Lemma maximum_payload_size_exact (params : StreamParams) :
  StreamParams_ok params ->
  payload_size params * payload_count params
  + payload_final1_size params + payload_final2_size params < 2 ^ 64 ->
  maximum_payload_size params
  = payload_size params * payload_count params
    + payload_final1_size params + payload_final2_size params.
Proof.
  unfold StreamParams_ok, representable. cbn [is_signed size_t uint64_t].
  change (bits size_t) with 64.
  intros (_ & _ & Hp & Hc & H1 & H2) Hsum. unfold maximum_payload_size.
  assert (0 <= payload_size params * payload_count params) by nia.
  rewrite size_mul_small by lia.
  rewrite (size_add_small (_ * _)) by lia. apply size_add_small. lia.
Qed.

(** Values read from 32-bit registers cannot wrap the sum around. *)
Lemma u32_params_no_wrap (params : StreamParams) :
  representable uint32_t (payload_size params) ->
  representable uint32_t (payload_count params) ->
  representable uint32_t (payload_final1_size params) ->
  representable uint32_t (payload_final2_size params) ->
  payload_size params * payload_count params
  + payload_final1_size params + payload_final2_size params < 2 ^ 64.
Proof.
  unfold representable. cbn [is_signed uint32_t].
  change (bits uint32_t) with 32.
  intros Hp Hc H1 H2.
  assert (payload_size params * payload_count params
          <= (2 ^ 32 - 1) * (2 ^ 32 - 1)) by nia.
  lia.
Qed.

Lemma total_size_app (a b : list read_request) :
  total_size (a ++ b) = total_size a + total_size b.
Proof.
  unfold total_size. induction a as [|r a IH]; simpl; [reflexivity|].
  rewrite IH. lia.
Qed.

Lemma total_size_nonneg (start : Z) (reads : list read_request) :
  contiguous_from start reads -> 0 <= total_size reads.
Proof.
  revert start. induction reads as [|r reads IH]; intros start; simpl.
  - intros _. unfold total_size. simpl. lia.
  - intros (_ & Hs & Hc). specialize (IH _ Hc).
    unfold total_size in *. simpl. lia.
Qed.

Lemma contiguous_from_app (start : Z) (a b : list read_request) :
  contiguous_from start (a ++ b)
  <-> contiguous_from start a /\ contiguous_from (start + total_size a) b.
Proof.
  revert start. induction a as [|r a IH]; intros start; simpl.
  - unfold total_size. simpl. rewrite Z.add_0_r. tauto.
  - rewrite IH. change (total_size (r :: a)) with (size r + total_size a).
    rewrite Z.add_assoc. tauto.
Qed.

Lemma contiguous_from_offsets (start : Z) (reads : list read_request) :
  contiguous_from start reads -> Forall (fun r => start <= offset r) reads.
Proof.
  revert start. induction reads as [|r reads IH]; intros start; simpl.
  - constructor.
  - intros (Ho & Hs & Hc). constructor; [lia|].
    specialize (IH _ Hc). eapply Forall_impl; [exact IH|].
    simpl. intros r' Hr'. lia.
Qed.

(** Contiguous reads that end inside the buffer lie inside it. *)
Lemma contiguous_from_within (start buf_size : Z) (reads : list read_request) :
  0 <= start -> contiguous_from start reads ->
  start + total_size reads <= buf_size ->
  Forall (within buf_size) reads.
Proof.
  revert start. induction reads as [|r reads IH]; intros start H0; simpl.
  - constructor.
  - intros (Ho & Hs & Hc). change (total_size (r :: reads))
      with (size r + total_size reads). intros Hend.
    pose proof (total_size_nonneg _ _ Hc).
    constructor.
    + unfold within. lia.
    + apply (IH (start + size r)); [lia | exact Hc | lia].
Qed.

(** Contiguous reads share no byte. *)
Lemma contiguous_from_disjoint (start : Z) (reads : list read_request) :
  contiguous_from start reads -> disjoint_reads reads.
Proof.
  revert start. induction reads as [|r reads IH]; intros start; simpl.
  - trivial.
  - intros (Ho & Hs & Hc). split; [|exact (IH _ Hc)].
    apply contiguous_from_offsets in Hc.
    eapply Forall_impl; [exact Hc|]. simpl. intros r' Hr'. lia.
Qed.

Section ReadPayload.
Context `{AsyncPool}.

(** What one submission does to the pool. *)
Lemma submit_cases (pool : list read_request) (cursor sz : Z) :
  (exists w, submit pool cursor sz = (throw (runtime_error w), pool)
             /\ submit_throws pool (MkRead cursor sz) = Some w)
  \/ (submit pool cursor sz = (ret tt, pool ++ [MkRead cursor sz])
      /\ submit_throws pool (MkRead cursor sz) = None).
Proof.
  unfold submit. destruct (submit_throws pool (MkRead cursor sz)) as [w|].
  - left. eauto.
  - right. auto.
Qed.

(** The loop submits contiguous reads of the payload size, from the cursor
    it starts with; it ends with the cursor past them, or with the
    exception of the submission that threw. *)
Lemma submit_payloads_spec (n : nat) (p : Z) (pool : list read_request)
  (cursor : Z) :
  0 <= p -> 0 <= cursor -> cursor + Z.of_nat n * p < 2 ^ 64 ->
  exists submitted,
    snd (submit_payloads n p pool cursor) = pool ++ submitted
    /\ contiguous_from cursor submitted
    /\ total_size submitted <= Z.of_nat n * p
    /\ match fst (submit_payloads n p pool cursor) with
       | inr cursor' =>
           cursor' = cursor + Z.of_nat n * p
           /\ total_size submitted = Z.of_nat n * p
       | inl e => exists w, e = runtime_error w
       end.
Proof.
  intros Hp. revert pool cursor.
  induction n as [|n IH]; intros pool cursor Hc Hfit.
  - exists []. simpl. rewrite app_nil_r. unfold total_size. simpl.
    repeat split; lia.
  - cbn [submit_payloads].
    destruct (submit_cases pool cursor p) as [(w & -> & _)|(-> & _)];
      unfold ret, throw; cbn iota beta.
    + exists []. simpl. rewrite app_nil_r. unfold total_size. simpl.
      repeat split; [nia | eauto].
    + rewrite size_add_small by nia.
      destruct (IH (pool ++ [MkRead cursor p]) (cursor + p))
        as (submitted & Hsnd & Hcont & Hle & Hfst); [lia | nia |].
      exists (MkRead cursor p :: submitted).
      rewrite Hsnd, <- app_assoc. split; [reflexivity|].
      split; [simpl; auto|].
      change (total_size (MkRead cursor p :: submitted))
        with (p + total_size submitted).
      split; [nia|].
      destruct (fst (submit_payloads n p (pool ++ [MkRead cursor p]) (cursor + p))).
      * exact Hfst.
      * destruct Hfst as [-> ->]. split; nia.
Qed.

(** A final transfer is submitted when its size is not zero. *)
Lemma submit_final_spec (pool : list read_request) (cursor f : Z) :
  0 <= f ->
  exists submitted,
    snd (if negb (f =? 0) then submit pool cursor f else (ret tt, pool))
    = pool ++ submitted
    /\ contiguous_from cursor submitted
    /\ total_size submitted <= f
    /\ match fst (if negb (f =? 0) then submit pool cursor f
                  else (ret tt, pool)) with
       | inr _ => total_size submitted = f
       | inl e => exists w, e = runtime_error w
       end.
Proof.
  intros Hf. destruct (Z.eqb_spec f 0) as [->|Hne]; cbn [negb].
  - exists []. simpl. rewrite app_nil_r. unfold total_size. simpl.
    repeat split; lia.
  - destruct (submit_cases pool cursor f) as [(w & -> & _)|(-> & _)].
    + exists []. simpl. rewrite app_nil_r. unfold total_size. simpl.
      repeat split; [lia | eauto].
    + exists [MkRead cursor f]. unfold total_size. simpl.
      repeat split; lia.
Qed.

(** The [try] block submits contiguous reads from offset 0 on; when it
    completes they cover the whole payload. *)
Lemma read_payload_try_spec (params : StreamParams) (pool : list read_request) :
  StreamParams_ok params ->
  payload_size params * payload_count params
  + payload_final1_size params + payload_final2_size params < 2 ^ 64 ->
  exists submitted,
    snd (read_payload_try params pool) = pool ++ submitted
    /\ contiguous_from 0 submitted
    /\ total_size submitted
       <= payload_size params * payload_count params
          + payload_final1_size params + payload_final2_size params
    /\ match fst (read_payload_try params pool) with
       | inr _ =>
           total_size submitted
           = payload_size params * payload_count params
             + payload_final1_size params + payload_final2_size params
       | inl e => exists w, e = runtime_error w
       end.
Proof.
  unfold StreamParams_ok, representable. cbn [is_signed size_t uint64_t].
  change (bits size_t) with 64.
  intros (_ & _ & Hp & Hc & H1 & H2) Hsum.
  destruct params as [ls ts p c f1 f2 tmo]. cbn [Stream.payload_size
    Stream.payload_count Stream.payload_final1_size
    Stream.payload_final2_size] in *.
  assert (Hpc : 0 <= p * c) by nia.
  unfold read_payload_try. cbn [Stream.payload_size Stream.payload_count
    Stream.payload_final1_size Stream.payload_final2_size].
  destruct (submit_payloads_spec (Z.to_nat c) p pool 0)
    as (sub0 & Hsnd0 & Hcont0 & Hle0 & Hfst0);
    [lia | lia | rewrite Z2Nat.id by lia; nia |].
  rewrite Z2Nat.id in * by lia.
  destruct (submit_payloads (Z.to_nat c) p pool 0) as [[e|cursor] pool0].
  - cbn [fst snd] in *. exists sub0. repeat split; auto. lia.
  - cbn [fst snd] in *. destruct Hfst0 as [-> Htot0]. subst pool0.
    rewrite Z.add_0_l in *.
    destruct (submit_final_spec (pool ++ sub0) (c * p) f1)
      as (sub1 & Hsnd1 & Hcont1 & Hle1 & Hfst1); [lia|].
    destruct (Z.eqb_spec f1 0) as [->|Hne1]; cbn [negb] in *.
    + unfold ret, throw in *. cbv beta iota zeta in *. cbn [fst snd] in *.
      destruct (submit_final_spec (pool ++ sub0) (c * p) f2)
        as (sub2 & Hsnd2 & Hcont2 & Hle2 & Hfst2); [lia|].
      destruct (if negb (f2 =? 0) then _ else _) as [r2 pool2].
      cbn [fst snd] in *. subst pool2.
      exists (sub0 ++ sub2). rewrite <- app_assoc.
      split; [reflexivity|].
      rewrite contiguous_from_app, total_size_app, Htot0, Z.add_0_l.
      repeat split; auto; try lia.
      destruct r2; [exact Hfst2 | lia].
    + destruct (submit (pool ++ sub0) (c * p) f1) as [[e1|[]] pool1];
        unfold ret, throw in *; cbv beta iota zeta in *; cbn [fst snd] in *.
      * subst pool1. exists (sub0 ++ sub1).
        rewrite <- app_assoc. split; [reflexivity|].
        rewrite contiguous_from_app, total_size_app, Htot0, Z.add_0_l.
        repeat split; auto; lia.
      * subst pool1.
        rewrite size_add_small by lia.
        destruct (submit_final_spec ((pool ++ sub0) ++ sub1) (c * p + f1) f2)
          as (sub2 & Hsnd2 & Hcont2 & Hle2 & Hfst2); [lia|].
        destruct (if negb (f2 =? 0) then _ else _) as [r2 pool2].
        cbn [fst snd] in *. subst pool2.
        exists (sub0 ++ sub1 ++ sub2). rewrite <- !app_assoc.
        split; [reflexivity|].
        rewrite !contiguous_from_app, !total_size_app, Htot0, Z.add_0_l, Hfst1.
        repeat split; auto; try lia.
        destruct r2; [exact Hfst2 | lia].
Qed.

(** When no submission throws, neither does the [try] block. *)
Lemma submit_payloads_reliable (n : nat) (p : Z) (pool : list read_request)
  (cursor : Z) :
  (forall pool r, submit_throws pool r = None) ->
  exists cursor', fst (submit_payloads n p pool cursor) = inr cursor'.
Proof.
  intros Hrel. revert pool cursor.
  induction n as [|n IH]; intros pool cursor; cbn [submit_payloads].
  - eexists. reflexivity.
  - unfold submit. rewrite Hrel. unfold ret. cbn iota. apply IH.
Qed.

Lemma read_payload_try_reliable (params : StreamParams)
  (pool : list read_request) :
  (forall pool r, submit_throws pool r = None) ->
  fst (read_payload_try params pool) = ret tt.
Proof.
  intros Hrel. unfold read_payload_try.
  destruct (submit_payloads_reliable (Z.to_nat (payload_count params))
              (payload_size params) pool 0 Hrel) as [cursor Hc].
  destruct (submit_payloads _ _ _ _) as [r pool0]. cbn [fst] in Hc. subst r.
  unfold submit. rewrite !Hrel.
  destruct (negb (payload_final1_size params =? 0)),
    (negb (payload_final2_size params =? 0)); cbn; try rewrite Hrel;
    reflexivity.
Qed.

(** C10, as the code has it.  For every [StreamParams] value whose
    payload_size * payload_count + payload_final1_size +
    payload_final2_size does not wrap around in [size_t], that sum is
    [maximum_payload_size()], and [read_payload] throws
    "Buffer is too small to read the payload" (submitting nothing) exactly
    when the buffer is smaller than it.  Otherwise the reads it submits
    start at offset 0, are contiguous and disjoint and lie inside the
    buffer; when no submission throws, the call returns and the reads
    cover [maximum_payload_size()] bytes; when a submission throws, the
    call fails with the [StreamError] "Failed to read payload: ...". *)
Theorem read_payload_regions (pool : list read_request)
  (params : StreamParams) (buf_size : Z) :
  StreamParams_ok params ->
  payload_size params * payload_count params
  + payload_final1_size params + payload_final2_size params < 2 ^ 64 ->
  let outcome := read_payload pool params buf_size in
  maximum_payload_size params
  = payload_size params * payload_count params
    + payload_final1_size params + payload_final2_size params
  /\ (outcome
      = (throw (runtime_error "Buffer is too small to read the payload"), pool)
      <-> buf_size < maximum_payload_size params)
  /\ (maximum_payload_size params <= buf_size ->
      exists submitted,
        snd outcome = pool ++ submitted
        /\ contiguous_from 0 submitted
        /\ Forall (within buf_size) submitted
        /\ disjoint_reads submitted
        /\ (fst outcome = ret tt
              /\ total_size submitted = maximum_payload_size params
            \/ exists w,
                fst outcome
                = throw (StreamError ("Failed to read payload: " ++ w)))
        /\ ((forall pool r, submit_throws pool r = None) ->
            fst outcome = ret tt)).
Proof.
  intros Hok Hsum outcome.
  pose proof (maximum_payload_size_exact params Hok Hsum) as Hmax.
  split; [exact Hmax|].
  destruct (read_payload_try_spec params pool Hok Hsum)
    as (submitted & Hsnd & Hcont & Hle & Hfst).
  pose proof (read_payload_try_reliable params pool) as Hrel.
  subst outcome. unfold read_payload.
  change (size_add (size_add (size_mul _ _) _) _)
    with (maximum_payload_size params).
  destruct (Z.ltb_spec buf_size (maximum_payload_size params)) as [Hlt|Hge].
  - split; [tauto | intros; lia].
  - split.
    + split; [|intros; lia].
      destruct (read_payload_try params pool) as [[e|u] pool'];
        intros Heq; discriminate Heq.
    + intros _. exists submitted.
      destruct (read_payload_try params pool) as [[e|[]] pool'];
        cbn [fst snd] in *; subst pool'.
      * split; [reflexivity|]. split; [exact Hcont|].
        split; [apply (contiguous_from_within 0); auto; lia|].
        split; [eapply contiguous_from_disjoint; exact Hcont|].
        split.
        -- right. destruct Hfst as [w ->]. exists w. reflexivity.
        -- intros Hnone. specialize (Hrel Hnone). discriminate Hrel.
      * split; [reflexivity|]. split; [exact Hcont|].
        split; [apply (contiguous_from_within 0); auto; lia|].
        split; [eapply contiguous_from_disjoint; exact Hcont|].
        split; [left; split; [reflexivity | lia] | reflexivity].
Qed.

End ReadPayload.

Lemma read_payload_regions_witness :
  let params := MkStreamParams 52 32 4 3 2 1 500 in
  let outcome := @read_payload reliable_pool [] params 16 in
  maximum_payload_size params = 15
  /\ (outcome
      = (throw (runtime_error "Buffer is too small to read the payload"), [])
      <-> 16 < maximum_payload_size params)
  /\ (maximum_payload_size params <= 16 ->
      exists submitted,
        snd outcome = [] ++ submitted
        /\ contiguous_from 0 submitted
        /\ Forall (within 16) submitted
        /\ disjoint_reads submitted
        /\ (fst outcome = ret tt
              /\ total_size submitted = maximum_payload_size params
            \/ exists w,
                fst outcome
                = throw (StreamError ("Failed to read payload: " ++ w)))
        /\ ((forall pool r,
               @submit_throws reliable_pool pool r = None) ->
            fst outcome = ret tt)).
Proof.
  apply (@read_payload_regions reliable_pool []
           (MkStreamParams 52 32 4 3 2 1 500) 16).
  - vm_compute. repeat split; congruence.
  - vm_compute. reflexivity.
Defined.

(** C10 as stated fails when the sum wraps around: two transfers of 2^63
    bytes make a total of 0 in [size_t], so a buffer of 16 bytes passes
    the size check although it is smaller than the payload, and the reads
    submitted lie outside it. *)
Lemma read_payload_wraps :
  let params := MkStreamParams 0 0 (2 ^ 63) 2 0 0 500 in
  let outcome := @read_payload reliable_pool [] params 16 in
  StreamParams_ok params
  /\ 16 < payload_size params * payload_count params
          + payload_final1_size params + payload_final2_size params
  /\ maximum_payload_size params = 0
  /\ outcome = (ret tt, [MkRead 0 (2 ^ 63); MkRead (2 ^ 63) (2 ^ 63)])
  /\ ~ Forall (within 16) (snd outcome)
  /\ total_size (snd outcome) <> maximum_payload_size params.
Proof.
  cbv zeta. split; [vm_compute; repeat split; congruence|].
  split; [vm_compute; reflexivity|].
  split; [vm_compute; reflexivity|].
  split; [vm_compute; reflexivity|].
  split.
  - intros Hall. apply Forall_inv in Hall. destruct Hall as [_ Hend].
    vm_compute in Hend. apply Hend. reflexivity.
  - vm_compute. discriminate.
Qed.

End StreamFacts.

(** ** The guarded wrapper *)

Module SharedFacts.
Import Control ModelDevice.

Section Shared.
Context {ControlHandle : Type} `{DeviceControl ControlHandle}.

(** What a guarded call does when the mutex is free: the call on the
    object in the store, the mutex free again afterwards. *)
Lemma lock_guard_unlocked {R : Type} (f : comp ControlHandle R)
  (store : gmap loc ControlHandle) (l : loc) :
  lock_guard f (store, MkShared l false)
  = match deref l f store with
    | None => None
    | Some (r, store') => Some (r, (store', MkShared l false))
    end.
Proof. reflexivity. Qed.

(** A guarded call on a held mutex does not return. *)
Lemma lock_guard_locked {R : Type} (f : comp ControlHandle R)
  (store : gmap loc ControlHandle) (l : loc) :
  lock_guard f (store, MkShared l true) = None.
Proof. reflexivity. Qed.

(** Every override is the guarded call of the method it overrides. *)
Lemma invoke_shared {R : Type} (op : Op R) :
  invoke (S := gmap loc ControlHandle * SharedControlHandle) op
  = lock_guard (invoke (S := ControlHandle) op).
Proof. destruct op; reflexivity. Qed.

(** C9.  For every operation of the DeviceControl interface and every
    argument, invoked in a single thread on a [SharedControlHandle] whose
    mutex is free and whose pointer refers to [handle] in the store: the
    call on the wrapper is the call of the same operation on [handle]
    itself.  It returns what that call returns (a value or an exception),
    the store holds the handle as that call left it, under the same
    pointer, and the wrapper is as it was, the mutex free for the next
    call; if the call on [handle] does not return, neither does the call
    on the wrapper. *)
Theorem SharedControlHandle_delegates {R : Type} (op : Op R)
  (store : gmap loc ControlHandle) (s : SharedControlHandle)
  (handle : ControlHandle) :
  m_mutex s = false ->
  store !! m_handle s = Some handle ->
  invoke (S := gmap loc ControlHandle * SharedControlHandle) op (store, s)
  = match invoke op handle with
    | None => None
    | Some (r, handle') => Some (r, (<[ m_handle s := handle' ]> store, s))
    end.
Proof.
  destruct s as [l m]. cbn [m_mutex m_handle]. intros -> Hl.
  rewrite invoke_shared, lock_guard_unlocked.
  unfold deref. rewrite Hl.
  destruct (invoke op handle) as [[r handle']|]; reflexivity.
Qed.

End Shared.

Lemma SharedControlHandle_delegates_witness :
  let store : gmap loc handle := {[ 1%positive := with_sirm ]} in
  let s := SharedControlHandle_ctor 1 in
  invoke (S := gmap loc handle * SharedControlHandle)
    (SetRetryCount 5) (store, s)
  = match invoke (SetRetryCount 5) with_sirm with
    | None => None
    | Some (r, handle') => Some (r, (<[ m_handle s := handle' ]> store, s))
    end.
Proof.
  exact (SharedControlHandle_delegates (SetRetryCount 5)
           {[ 1%positive := with_sirm ]}
           (SharedControlHandle_ctor 1) with_sirm eq_refl eq_refl).
Defined.

End SharedFacts.

(** ** Stream parameters on a device without SIRM *)

Module FromControlFacts.
Import Control ModelDevice.

Section FromControl.
Context {S : Type} `{DeviceControl S} `{RegisterAccess S}.


(** With a SIRM present the construction goes on to read the stream
    parameters: the failure is tied to the absent SIRM. *)
Lemma from_control_SIRM_present (ctrl ctrl' : S) (sirm : Sirm) :
  sbrm_sirm ctrl = Some (ret sirm, ctrl') ->
  sirm_address sirm <> 0 ->
  from_control ctrl
  = (leader_size <- maximum_leader_size sirm ;;
     trailer_size <- maximum_trailer_size sirm ;;
     payload_size <- payload_transfer_size sirm ;;
     payload_count <- payload_transfer_count sirm ;;
     payload_final1_size <- payload_final_transfer1_size sirm ;;
     payload_final2_size <- payload_final_transfer2_size sirm ;;
     timeout <- maximum_device_response_time ;;
     pure (Stream.MkStreamParams leader_size trailer_size payload_size
             payload_count payload_final1_size payload_final2_size timeout))
      ctrl'.
Proof.
  intros Hsirm Hnz. unfold from_control at 1. unfold bind at 1.
  rewrite Hsirm. unfold ret. cbn iota. unfold Sirm_absent.
  destruct (Z.eqb_spec (sirm_address sirm) 0); [contradiction | reflexivity].
Qed.

End FromControl.


End FromControlFacts.

(** ** Chunked reads *)

Module FramingFacts.
Import Framing.

(** [ceil_div n c] is the least number of chunks of [c] bytes that hold
    [n] bytes. *)
Lemma ceil_div_spec (n c : nat) :
  (0 < c)%nat ->
  (n <= ceil_div n c * c)%nat
  /\ (forall k, (n <= k * c)%nat -> (ceil_div n c <= k)%nat).
Proof.
  intros Hc. unfold ceil_div.
  pose proof (Nat.div_mod_eq (n + c - 1) c) as Hdm.
  pose proof (Nat.mod_upper_bound (n + c - 1) c ltac:(lia)) as Hmod.
  split; [nia|].
  intros k Hk.
  destruct (Nat.le_gt_cases ((n + c - 1) / c) k) as [|Hgt]; [assumption|].
  assert (S k <= (n + c - 1) / c)%nat by lia. nia.
Qed.













Section Chunks.
Variable c : nat.
Hypothesis Hc : Z.of_nat (S c) < 2 ^ 16.
Variables (id address : Z) (n : nat).
Hypothesis Hid : 0 <= id < 2 ^ 16.
Hypothesis Haddress : 0 <= address.
Hypothesis Hrange : address + Z.of_nat n <= 2 ^ 64.






End Chunks.






End FramingFacts.

(** ** The definitions on concrete inputs *)

Module Examples.
Import RegisterMap Stream Control ModelDevice.

(** The example of the comment above [dumpBytes]. *)
Example dumpBytes_0x12345678 :
  dumpBytes uint32_t 0x12345678 [0; 0; 0; 0] = [0x78; 0x56; 0x34; 0x12].
Proof. reflexivity. Qed.

(** The acknowledge payload 78 56 34 12 is the u32 0x12345678. *)
Example ParseBytes_0x12345678 :
  ParseBytes uint32_t [0x78; 0x56; 0x34; 0x12] = 0x12345678.
Proof. reflexivity. Qed.

Example ParseBytes_int8_t : ParseBytes int8_t [0xFF] = -1.
Proof. reflexivity. Qed.

Example ParseBytes_int32_t_min :
  ParseBytes int32_t [0; 0; 0; 0x80] = - 2 ^ 31.
Proof. reflexivity. Qed.

Example dumpBytes_int16_t : dumpBytes int16_t (-2) [0; 0; 7] = [0xFE; 0xFF; 7].
Proof. reflexivity. Qed.

Example parse_bytes_BusSpeed_SuperSpeedPlus :
  parse_bytes_BusSpeed [0x10; 0; 0; 0] = ret SuperSpeedPlus.
Proof. reflexivity. Qed.

Example parse_bytes_BusSpeed_high_byte :
  parse_bytes_BusSpeed [1; 0; 0; 0x80]
  = throw (ControlError "invalid bus speed defined").
Proof. reflexivity. Qed.

(** "cameleon" written to a slot of 16 bytes, and read back. *)
Example dumpBytes_string_cameleon :
  let name := [99; 97; 109; 101; 108; 101; 111; 110] in
  dumpBytes_string name (repeat 0 16) 16 = (ret tt, name ++ repeat 0 8)
  /\ (forall utf8 replacement,
        decode_string utf8 replacement (name ++ repeat 0 8) = Some name).
Proof. split; [reflexivity|]. intros [|] replacement; reflexivity. Qed.

Example dumpBytes_string_exact_fit :
  dumpBytes_string [83; 78] [9; 9] 2 = (ret tt, [83; 78])
  /\ (forall utf8 replacement,
        decode_string utf8 replacement [83; 78] = Some [83; 78]).
Proof. split; [reflexivity|]. intros [|] replacement; reflexivity. Qed.

(** "caf" followed by e-acute in UTF-8 (C3 A9): text when the capability
    bit is set, two replaced bytes when it is clear. *)
Example decode_string_utf8 :
  decode_string true [63] [99; 97; 102; 0xC3; 0xA9; 0; 0; 0]
  = Some [99; 97; 102; 0xC3; 0xA9]
  /\ decode_string false [63] [99; 97; 102; 0xC3; 0xA9; 0; 0; 0]
     = Some [99; 97; 102; 63; 63].
Proof. split; reflexivity. Qed.

(** Ill-formed UTF-8: an overlong encoding, a surrogate, a truncated
    sequence, a code point above U+10FFFF. *)
Example well_formed_utf8_rejects :
  well_formed_utf8 [0xC0; 0x80] = false
  /\ well_formed_utf8 [0xED; 0xA0; 0x80] = false
  /\ well_formed_utf8 [0xE2; 0x82] = false
  /\ well_formed_utf8 [0xF4; 0x90; 0x80; 0x80] = false
  /\ well_formed_utf8 [0xE2; 0x82; 0xAC; 0xF0; 0x9F; 0x98; 0x80] = true.
Proof. repeat split. Qed.

Example dumpBytes_string_too_large :
  dumpBytes_string [83; 78; 48] [9; 9] 2
  = (throw (runtime_error "too large string"), [9; 9]).
Proof. reflexivity. Qed.

Example convertToControlError_BufferIo :
  U3V.convertToControlError (U3V.MkError U3V.BufferIo "short write")
  = Some (U3V.MkControlError U3V.ControlErrorType.Io "short write").
Proof. reflexivity. Qed.

Example convertToControlError_LibUsb :
  U3V.convertToControlError (U3V.MkError U3V.LibUsb "pipe")
  = Some (U3V.MkControlError U3V.ControlErrorType.Io "pipe").
Proof. reflexivity. Qed.

Example convertToControlError_InvalidDevice :
  U3V.convertToControlError (U3V.MkError U3V.InvalidDevice "no endpoint")
  = Some (U3V.MkControlError U3V.ControlErrorType.InvalidDevice
            "invalid device").
Proof. reflexivity. Qed.

Example enumerateCameras_skips :
  map U3V.info
    (U3V.enumerateCameras [camera_a; no_control; no_stream; camera_b])
  = [U3V.MkCameraInfo "vendor" "model A" "SN000123";
     U3V.MkCameraInfo "vendor" "model B" "SN000456"].
Proof. reflexivity. Qed.

Example maximum_payload_size_wraps :
  maximum_payload_size (MkStreamParams 0 0 (2 ^ 32) (2 ^ 32) 5 0 500) = 5.
Proof. reflexivity. Qed.

Example read_payload_too_small :
  @read_payload reliable_pool [] (MkStreamParams 52 32 4 3 2 1 500) 14
  = (throw (runtime_error "Buffer is too small to read the payload"), []).
Proof. reflexivity. Qed.

Example read_payload_all :
  @read_payload reliable_pool [] (MkStreamParams 52 32 4 3 2 1 500) 15
  = (ret tt,
     [MkRead 0 4; MkRead 4 4; MkRead 8 4; MkRead 12 2; MkRead 14 1]).
Proof. reflexivity. Qed.

Example read_payload_refused :
  @read_payload (refusing_pool 8) [] (MkStreamParams 52 32 4 3 2 1 500) 15
  = (throw (StreamError "Failed to read payload: transfer failed"),
     [MkRead 0 4; MkRead 4 4]).
Proof. reflexivity. Qed.

Example from_control_with_sirm :
  from_control with_sirm
  = Some (ret (MkStreamParams 52 32 65536 4 1024 0 500), with_sirm).
Proof. reflexivity. Qed.

Example enable_streaming_with_sirm :
  ControlHandle_enable_streaming with_sirm
  = Some (ret tt, MkHandle true 500 3 1024 0x20000 true).
Proof. reflexivity. Qed.

(** Two calls through the wrapper, one after the other. *)
Example shared_calls :
  let store : gmap loc handle := {[ 1%positive := with_sirm ]} in
  let shared := SharedControlHandle_ctor 1 in
  (invoke (S := gmap loc handle * SharedControlHandle) (SetRetryCount 5)
     (store, shared)
   = Some (ret tt, ({[ 1%positive := set_retry 5 with_sirm ]}, shared)))
  /\ invoke (S := gmap loc handle * SharedControlHandle) RetryCount
       ({[ 1%positive := set_retry 5 with_sirm ]}, shared)
     = Some (ret 5, ({[ 1%positive := set_retry 5 with_sirm ]}, shared)).
Proof.
  cbv zeta. unfold SharedControlHandle_ctor.
  rewrite !SharedFacts.invoke_shared, !SharedFacts.lock_guard_unlocked.
  unfold deref. rewrite !lookup_singleton_eq. cbn.
  rewrite !insert_singleton_eq. split; reflexivity.
Qed.

(** A wrapper whose pointer refers to no object, and one whose mutex is
    held. *)
Example shared_dangling :
  invoke (S := gmap loc handle * SharedControlHandle) IsOpened
    (∅, SharedControlHandle_ctor 1) = None.
Proof. reflexivity. Qed.

Example shared_locked :
  invoke (S := gmap loc handle * SharedControlHandle) IsOpened
    ({[ 1%positive := with_sirm ]}, MkShared 1 true) = None.
Proof. reflexivity. Qed.

Example sub_reads_200 :
  Framing.sub_reads 52 0xFFFE 0x10000 200
  = [Framing.MkReadMem 0xFFFE 0x10000 52; Framing.MkReadMem 0xFFFF 0x10034 52;
     Framing.MkReadMem 0 0x10068 52; Framing.MkReadMem 1 0x1009C 44].
Proof. reflexivity. Qed.

End Examples.

(** * Further properties of the code *)

(** ** Numeric registers, from bytes to values and back *)

Module RegisterMapMoreFacts.
Import RegisterMap RegisterMapMore IntegerTypesFacts RegisterMapFacts.

Lemma bytes_ok_le (n m : nat) (bytes : buffer) :
  (m <= n)%nat -> bytes_ok n bytes -> bytes_ok m bytes.
Proof. intros Hmn Hok i Hi. apply Hok. lia. Qed.

Lemma le_value_range (n : nat) (bytes : buffer) :
  bytes_ok n bytes -> 0 <= le_value n bytes < 2 ^ (8 * Z.of_nat n).
Proof.
  induction n as [|n IH]; intros Hok.
  - cbn. lia.
  - cbn [le_value].
    specialize (IH (bytes_ok_le _ _ _ (Nat.le_succ_diag_r n) Hok)).
    pose proof (Hok n (Nat.lt_succ_diag_r n)) as Hb. unfold is_byte in Hb.
    replace (8 * Z.of_nat (S n)) with (8 * Z.of_nat n + 8) by lia.
    rewrite Z.pow_add_r by lia. change (2 ^ 8) with 256. nia.
Qed.

(** Byte [i] of the little-endian value is byte [i] of the buffer. *)
Lemma le_value_digit (n : nat) (bytes : buffer) (i : nat) :
  bytes_ok n bytes -> (i < n)%nat ->
  (le_value n bytes / 2 ^ (8 * Z.of_nat i)) mod 2 ^ 8 = load bytes i.
Proof.
  induction n as [|n IH]; intros Hok Hi; [lia|].
  cbn [le_value].
  pose proof (bytes_ok_le _ _ _ (Nat.le_succ_diag_r n) Hok) as Hok'.
  pose proof (le_value_range n bytes Hok') as Hr.
  pose proof (Hok n (Nat.lt_succ_diag_r n)) as Hb. unfold is_byte in Hb.
  destruct (Nat.eq_dec i n) as [->|Hne].
  - rewrite Z.div_add by lia. rewrite Z.div_small by lia.
    apply Z.mod_small. cbn. lia.
  - assert (Hin : (i < n)%nat) by lia.
    replace (8 * Z.of_nat n)
      with (8 + 8 * Z.of_nat (n - i - 1) + 8 * Z.of_nat i) by lia.
    rewrite !Z.pow_add_r by lia. rewrite !Z.mul_assoc.
    rewrite Z.div_add by lia.
    rewrite (Z.mul_comm (load bytes n)), <- Z.mul_assoc, (Z.mul_comm (2 ^ 8)).
    rewrite Z.mod_add by lia. apply IH; assumption.
Qed.

(** Values that agree modulo [2^m] have the same bytes below bit [m]. *)
Lemma byte_of_congruent (a b k m : Z) :
  0 <= k -> k + 8 <= m -> a mod 2 ^ m = b mod 2 ^ m ->
  (a / 2 ^ k) mod 2 ^ 8 = (b / 2 ^ k) mod 2 ^ 8.
Proof.
  intros Hk Hm Hab. apply Z.bits_inj'. intros j Hj.
  destruct (Z_lt_dec j 8) as [Hlt|Hge].
  - rewrite !Z.mod_pow2_bits_low, !Z.div_pow2_bits by lia.
    rewrite <- (Z.mod_pow2_bits_low a m), <- (Z.mod_pow2_bits_low b m) by lia.
    rewrite Hab. reflexivity.
  - rewrite !Z.mod_pow2_bits_high by lia. reflexivity.
Qed.

(** [ParseBytes<T>] is the conversion to [T] of the little-endian number
    of the first [sizeof(T)] bytes. *)
Lemma ParseBytes_cast_le_value (T : IntType) (bytes : buffer) :
  register_width T -> bytes_ok (sizeof T) bytes ->
  ParseBytes T bytes = static_cast T (le_value (sizeof T) bytes).
Proof.
  intros HT Hok.
  pose proof (register_width_bits T HT) as Hb.
  assert (Hs : (0 < sizeof T)%nat) by (unfold bits in Hb; lia).
  apply (representable_inj T); try lia.
  - apply ParseBytes_representable; exact Hs.
  - apply static_cast_representable; lia.
  - unfold ParseBytes.
    rewrite (ParseBytes_loop_mod T (le_value (sizeof T) bytes)).
    + rewrite static_cast_mod. reflexivity.
    + lia.
    + intros i Hi. symmetry. apply le_value_digit; assumption.
Qed.



(** X2.  Parsing a buffer and dumping the value back into it leaves the
    buffer as it was: the two functions are inverse to each other on
    bytes as well as on values. *)
Theorem dumpBytes_ParseBytes (T : IntType) (bytes : buffer) :
  register_width T -> bytes_ok (sizeof T) bytes ->
  (sizeof T <= length bytes)%nat ->
  dumpBytes T (ParseBytes T bytes) bytes = bytes.
Proof.
  intros HT Hok Hlen.
  pose proof (register_width_bits T HT) as Hb.
  pose proof (ParseBytes_cast_le_value T bytes HT Hok) as Hcast.
  apply (nth_ext _ _ 0 0); [apply dumpBytes_length|].
  intros i _. fold (load (dumpBytes T (ParseBytes T bytes) bytes) i).
  fold (load bytes i).
  destruct (Nat.lt_ge_cases i (sizeof T)) as [Hi|Hi].
  - rewrite dumpBytes_load by assumption.
    rewrite <- (le_value_digit (sizeof T) bytes i) by assumption.
    apply (byte_of_congruent _ _ _ (bits T)); [lia | unfold bits; lia |].
    rewrite Hcast. apply static_cast_mod.
  - apply dumpBytes_untouched; assumption.
Qed.

Lemma dumpBytes_ParseBytes_witness :
  dumpBytes int32_t (ParseBytes int32_t [0x78; 0x56; 0x34; 0x92; 7])
    [0x78; 0x56; 0x34; 0x92; 7]
  = [0x78; 0x56; 0x34; 0x92; 7].
Proof.
  apply (dumpBytes_ParseBytes int32_t [0x78; 0x56; 0x34; 0x92; 7]).
  - right. right. left. reflexivity.
  - intros i Hi. unfold is_byte.
    destruct i as [|[|[|[|i]]]]; cbn in Hi |- *; lia.
  - cbn. lia.
Defined.

End RegisterMapMoreFacts.

Module DumpFacts.
Import RegisterMap RegisterMapMore IntegerTypesFacts RegisterMapFacts.
Import RegisterMapMoreFacts.

(** X3.  Whatever the value, the integral [dumpBytes] stores values of
    [uint8_t]; a value outside the range of [T] is stored as its
    conversion to [T] (no error is raised); and a second dump into the
    same buffer replaces the first one entirely. *)
Theorem dumpBytes_overwrite (T : IntType) (x y : Z) (buf : buffer) :
  (sizeof T <= length buf)%nat ->
  bytes_ok (sizeof T) (dumpBytes T x buf)
  /\ dumpBytes T (static_cast T x) buf = dumpBytes T x buf
  /\ dumpBytes T x (dumpBytes T y buf) = dumpBytes T x buf.
Proof.
  intros Hlen. split; [|split].
  - intros i Hi. rewrite dumpBytes_load by assumption.
    unfold is_byte. change 256 with (2 ^ 8). apply Z.mod_pos_bound. lia.
  - apply (nth_ext _ _ 0 0); [rewrite !dumpBytes_length; reflexivity|].
    intros i _. fold (load (dumpBytes T (static_cast T x) buf) i).
    fold (load (dumpBytes T x buf) i).
    destruct (Nat.lt_ge_cases i (sizeof T)) as [Hi|Hi].
    + rewrite !dumpBytes_load by assumption.
      apply (byte_of_congruent _ _ _ (bits T)); [lia | unfold bits; lia |].
      apply static_cast_mod.
    + rewrite !dumpBytes_untouched by assumption. reflexivity.
  - apply (nth_ext _ _ 0 0); [rewrite !dumpBytes_length; reflexivity|].
    intros i _. fold (load (dumpBytes T x (dumpBytes T y buf)) i).
    fold (load (dumpBytes T x buf) i).
    assert (Hlen' : (sizeof T <= length (dumpBytes T y buf))%nat)
      by (rewrite dumpBytes_length; exact Hlen).
    destruct (Nat.lt_ge_cases i (sizeof T)) as [Hi|Hi].
    + rewrite !dumpBytes_load by assumption. reflexivity.
    + rewrite !dumpBytes_untouched by assumption. reflexivity.
Qed.

Lemma dumpBytes_overwrite_witness :
  bytes_ok 2 (dumpBytes uint16_t 0x12345 [9; 9; 9])
  /\ dumpBytes uint16_t (static_cast uint16_t 0x12345) [9; 9; 9]
     = dumpBytes uint16_t 0x12345 [9; 9; 9]
  /\ dumpBytes uint16_t 0x12345 (dumpBytes uint16_t 0xFFFF [9; 9; 9])
     = dumpBytes uint16_t 0x12345 [9; 9; 9].
Proof.
  apply (dumpBytes_overwrite uint16_t 0x12345 0xFFFF [9; 9; 9]).
  cbn. lia.
Defined.

End DumpFacts.

(** ** The primary [parse_bytes] template and the bus speed *)

Module ParseBytesClassFacts.
Import RegisterMap RegisterMapMore IntegerTypesFacts RegisterMapFacts.
Import BusSpeedFacts RegisterMapMoreFacts.

(** Conversion to [int] of a value of [uint32_t]. *)
Lemma static_cast_int_u32 (z : Z) :
  0 <= z < 2 ^ 32 ->
  static_cast int z = if z <? 2 ^ 31 then z else z - 2 ^ 32.
Proof.
  intros Hz. unfold static_cast. cbn [is_signed int int32_t].
  change (bits int) with 32. change (32 - 1) with 31.
  destruct (Z.ltb_spec z (2 ^ 31)).
  - rewrite Z.mod_small by lia. lia.
  - replace (z + 2 ^ 31) with (z - 2 ^ 31 + 1 * 2 ^ 32) by lia.
    rewrite Z.mod_add by lia. rewrite Z.mod_small by lia. lia.
Qed.

(** What the or-ed bytes amount to, before the conversion to [T]. *)
Lemma parse_bytes_int (T : IntType) (b0 b1 b2 b3 : Z) (rest : buffer) :
  is_byte b0 -> is_byte b1 -> is_byte b2 -> is_byte b3 ->
  parse_bytes T (b0 :: b1 :: b2 :: b3 :: rest)
  = static_cast T (static_cast int (le_u32 b0 b1 b2 b3)).
Proof.
  unfold is_byte. intros H0 H1 H2 H3.
  unfold parse_bytes, load. cbn [nth]. f_equal.
  rewrite !Z.shiftl_mul_pow2 by lia.
  assert (Hint : forall z, - 2 ^ 31 <= z < 2 ^ 31 -> static_cast int z = z).
  { intros z Hz. apply representable_cast; [reflexivity | exact Hz]. }
  rewrite (Hint (b1 * 2 ^ 8)), (Hint (b2 * 2 ^ 16)) by lia.
  rewrite (lor_disjoint b0 b1 8) by lia.
  rewrite (lor_disjoint _ b2 16) by lia.
  rewrite !static_cast_int_u32 by (unfold le_u32; lia).
  unfold le_u32.
  destruct (Z.ltb_spec (b3 * 2 ^ 24) (2 ^ 31)),
    (Z.ltb_spec (b0 + b1 * 2 ^ 8 + b2 * 2 ^ 16 + b3 * 2 ^ 24) (2 ^ 31));
    try lia.
  - apply lor_disjoint; lia.
  - replace (b3 * 2 ^ 24 - 2 ^ 32) with ((b3 - 256) * 2 ^ 24) by lia.
    rewrite lor_disjoint by lia. lia.
Qed.

(** The four-byte number and the number of the first [n <= 4] bytes
    agree on their low [8 n] bits. *)
Lemma byte_sum_congruent (b0 b1 b2 b3 : Z) (rest : buffer) (n : nat) :
  (0 < n <= 4)%nat ->
  le_u32 b0 b1 b2 b3 mod 2 ^ (8 * Z.of_nat n)
  = le_value n (b0 :: b1 :: b2 :: b3 :: rest) mod 2 ^ (8 * Z.of_nat n).
Proof.
  intros Hn. unfold le_u32.
  destruct n as [|[|[|[|[|n]]]]]; try lia; cbn [le_value load nth];
    cbn [Z.of_nat Pos.of_succ_nat Pos.succ Z.mul Pos.mul Pos.add].
  - change (2 ^ 0) with 1. change (2 ^ 16) with (2 ^ 8 * 2 ^ 8).
    change (2 ^ 24) with (2 ^ 16 * 2 ^ 8).
    replace (b0 + b1 * 2 ^ 8 + b2 * (2 ^ 8 * 2 ^ 8) + b3 * (2 ^ 16 * 2 ^ 8))
      with (0 + b0 * 1 + (b1 + b2 * 2 ^ 8 + b3 * 2 ^ 16) * 2 ^ 8) by lia.
    apply Z.mod_add. lia.
  - change (2 ^ 0) with 1. change (2 ^ 24) with (2 ^ 8 * 2 ^ 16).
    replace (b0 + b1 * 2 ^ 8 + b2 * 2 ^ 16 + b3 * (2 ^ 8 * 2 ^ 16))
      with (0 + b0 * 1 + b1 * 2 ^ 8 + (b2 + b3 * 2 ^ 8) * 2 ^ 16) by lia.
    apply Z.mod_add. lia.
  - change (2 ^ 0) with 1.
    replace (b0 + b1 * 2 ^ 8 + b2 * 2 ^ 16 + b3 * 2 ^ 24)
      with (0 + b0 * 1 + b1 * 2 ^ 8 + b2 * 2 ^ 16 + b3 * 2 ^ 24) by lia.
    apply Z.mod_add. lia.
  - change (2 ^ 0) with 1. f_equal. lia.
Qed.

(** X4.  The primary template [ParseBytes<T>::parse_bytes] reads four
    bytes whatever [T] is, as an [int]: at [uint32_t] it agrees with the
    function template [ParseBytes<uint32_t>]; at a narrower unsigned type
    it keeps the low bytes of the number; at [uint64_t] it never reads
    bytes 4 to 7 and sign-extends, so a fourth byte of 0x80 or more gives
    the number plus 2^64 - 2^32. *)
Theorem parse_bytes_placeholder (b0 b1 b2 b3 : Z) (rest : buffer) :
  is_byte b0 -> is_byte b1 -> is_byte b2 -> is_byte b3 ->
  let bytes := b0 :: b1 :: b2 :: b3 :: rest in
  parse_bytes uint32_t bytes = ParseBytes uint32_t bytes
  /\ parse_bytes uint16_t bytes = ParseBytes uint16_t bytes
  /\ parse_bytes uint8_t bytes = ParseBytes uint8_t bytes
  /\ parse_bytes uint64_t bytes
     = le_u32 b0 b1 b2 b3 + (if b3 <? 0x80 then 0 else 2 ^ 64 - 2 ^ 32)
  /\ (forall rest', parse_bytes uint64_t (b0 :: b1 :: b2 :: b3 :: rest')
                    = parse_bytes uint64_t bytes).
Proof.
  intros H0 H1 H2 H3 bytes. subst bytes.
  assert (Hok : forall n, (n <= 4)%nat ->
                  bytes_ok n (b0 :: b1 :: b2 :: b3 :: rest)).
  { intros n Hn i Hi. destruct i as [|[|[|[|i]]]]; cbn; try assumption. lia. }
  pose proof (le_u32_range b0 b1 b2 b3 H0 H1 H2 H3) as Hr.
  assert (Hmod : forall T, bits T <= 32 ->
            static_cast T (static_cast int (le_u32 b0 b1 b2 b3)) mod 2 ^ bits T
            = le_u32 b0 b1 b2 b3 mod 2 ^ bits T).
  { intros T HT. rewrite static_cast_mod.
    rewrite <- (mod_mod_pow2 (static_cast int _) (bits T) (bits int))
      by (pose proof (bits_nonneg T); change (bits int) with 32; lia).
    rewrite static_cast_mod. apply mod_mod_pow2.
    pose proof (bits_nonneg T). change (bits int) with 32. lia. }
  assert (Hagree : forall T, register_width T -> is_signed T = false ->
            bits T <= 32 ->
            parse_bytes T (b0 :: b1 :: b2 :: b3 :: rest)
            = ParseBytes T (b0 :: b1 :: b2 :: b3 :: rest)).
  { intros T HT Hu Hb.
    pose proof (register_width_bits T HT) as Hb8.
    assert (Hsz : (sizeof T <= 4)%nat) by (unfold bits in Hb; lia).
    pose proof (ParseBytes_cast_le_value T (b0 :: b1 :: b2 :: b3 :: rest) HT
                  (Hok _ Hsz)) as Hcast.
    rewrite parse_bytes_int, Hcast by assumption.
    apply (representable_inj T); try lia;
      try (apply static_cast_representable; lia).
    rewrite Hmod, static_cast_mod by exact Hb.
    apply (byte_sum_congruent _ _ _ _ rest (sizeof T)).
    unfold bits in Hb8. lia. }
  split.
  { apply Hagree; [right; right; left; reflexivity | reflexivity |].
    change (bits uint32_t) with 32. lia. }
  split.
  { apply Hagree; [right; left; reflexivity | reflexivity |].
    change (bits uint16_t) with 16. lia. }
  split.
  { apply Hagree; [left; reflexivity | reflexivity |].
    change (bits uint8_t) with 8. lia. }
  split.
  - rewrite parse_bytes_int by assumption.
    rewrite static_cast_int_u32 by exact Hr.
    unfold is_byte, le_u32 in *.
    destruct (Z.ltb_spec (b0 + b1 * 2 ^ 8 + b2 * 2 ^ 16 + b3 * 2 ^ 24) (2 ^ 31)),
      (Z.ltb_spec b3 0x80); try lia.
    + rewrite Z.add_0_r. apply representable_cast; [reflexivity|].
      unfold representable. cbn [is_signed uint64_t].
      change (bits uint64_t) with 64. lia.
    + unfold static_cast. cbn [is_signed uint64_t].
      change (bits uint64_t) with 64.
      replace (b0 + b1 * 2 ^ 8 + b2 * 2 ^ 16 + b3 * 2 ^ 24 - 2 ^ 32)
        with (b0 + b1 * 2 ^ 8 + b2 * 2 ^ 16 + b3 * 2 ^ 24 - 2 ^ 32 + 2 ^ 64
              + (-1) * 2 ^ 64) by lia.
      rewrite Z.mod_add by lia. rewrite Z.mod_small by lia. lia.
  - intros rest'. rewrite !parse_bytes_int by assumption. reflexivity.
Qed.

Lemma parse_bytes_placeholder_witness :
  let bytes := [0x78; 0x56; 0x34; 0x92; 0xAA; 0xBB; 0xCC; 0xDD] in
  parse_bytes uint32_t bytes = ParseBytes uint32_t bytes
  /\ parse_bytes uint16_t bytes = ParseBytes uint16_t bytes
  /\ parse_bytes uint8_t bytes = ParseBytes uint8_t bytes
  /\ parse_bytes uint64_t bytes
     = le_u32 0x78 0x56 0x34 0x92
       + (if 0x92 <? 0x80 then 0 else 2 ^ 64 - 2 ^ 32)
  /\ (forall rest', parse_bytes uint64_t (0x78 :: 0x56 :: 0x34 :: 0x92 :: rest')
                    = parse_bytes uint64_t bytes).
Proof.
  apply (parse_bytes_placeholder 0x78 0x56 0x34 0x92 [0xAA; 0xBB; 0xCC; 0xDD]);
    unfold is_byte; lia.
Defined.

(** X5.  The bus speed parser is sound: when it returns a speed, the four
    bytes hold exactly that enumerator's value, so the first byte is the
    value and the other three are zero; two different registers never
    parse to the same speed. *)
Theorem parse_bytes_BusSpeed_sound (b0 b1 b2 b3 : Z) (rest : buffer)
  (s : BusSpeed) :
  is_byte b0 -> is_byte b1 -> is_byte b2 -> is_byte b3 ->
  parse_bytes_BusSpeed (b0 :: b1 :: b2 :: b3 :: rest) = ret s ->
  le_u32 b0 b1 b2 b3 = BusSpeed_value s
  /\ b0 = BusSpeed_value s /\ b1 = 0 /\ b2 = 0 /\ b3 = 0.
Proof.
  intros H0 H1 H2 H3 Hparse.
  assert (Hraw : le_u32 b0 b1 b2 b3 = BusSpeed_value s).
  { destruct (parse_bytes_BusSpeed_raw (b0 :: b1 :: b2 :: b3 :: rest)
                (le_u32 b0 b1 b2 b3))
      as (R1 & R2 & R4 & R8 & R16 & Rother);
      [apply parse_bytes_uint32_t; assumption|].
    destruct (Z.eq_dec (le_u32 b0 b1 b2 b3) 1) as [E|N1];
      [rewrite (R1 E) in Hparse; injection Hparse as <-; exact E|].
    destruct (Z.eq_dec (le_u32 b0 b1 b2 b3) 2) as [E|N2];
      [rewrite (R2 E) in Hparse; injection Hparse as <-; exact E|].
    destruct (Z.eq_dec (le_u32 b0 b1 b2 b3) 4) as [E|N4];
      [rewrite (R4 E) in Hparse; injection Hparse as <-; exact E|].
    destruct (Z.eq_dec (le_u32 b0 b1 b2 b3) 8) as [E|N8];
      [rewrite (R8 E) in Hparse; injection Hparse as <-; exact E|].
    destruct (Z.eq_dec (le_u32 b0 b1 b2 b3) 16) as [E|N16];
      [rewrite (R16 E) in Hparse; injection Hparse as <-; exact E|].
    rewrite (Rother N1 N2 N4 N8 N16) in Hparse. discriminate Hparse. }
  split; [exact Hraw|].
  unfold le_u32, is_byte in *. destruct s; cbn [BusSpeed_value] in *; lia.
Qed.

Lemma parse_bytes_BusSpeed_sound_witness :
  le_u32 4 0 0 0 = BusSpeed_value HighSpeed
  /\ 4 = BusSpeed_value HighSpeed /\ 0 = 0 /\ 0 = 0 /\ 0 = 0.
Proof.
  apply (parse_bytes_BusSpeed_sound 4 0 0 0 [] HighSpeed);
    try (unfold is_byte; lia).
  reflexivity.
Defined.

(** The bytes of a dumped u32 are its four base-256 digits. *)
Lemma dumpBytes_uint32_t_bytes (v : Z) (buf : buffer) :
  (4 <= length buf)%nat ->
  exists rest,
    dumpBytes uint32_t v buf
    = v mod 2 ^ 8 :: (v / 2 ^ 8) mod 2 ^ 8 :: (v / 2 ^ 16) mod 2 ^ 8
      :: (v / 2 ^ 24) mod 2 ^ 8 :: rest.
Proof.
  intros Hlen.
  assert (Hl : (sizeof uint32_t <= length buf)%nat) by exact Hlen.
  pose proof (dumpBytes_length uint32_t v buf) as Hlen'.
  pose proof (dumpBytes_load uint32_t v buf 0 Hl ltac:(cbn; lia)) as L0.
  pose proof (dumpBytes_load uint32_t v buf 1 Hl ltac:(cbn; lia)) as L1.
  pose proof (dumpBytes_load uint32_t v buf 2 Hl ltac:(cbn; lia)) as L2.
  pose proof (dumpBytes_load uint32_t v buf 3 Hl ltac:(cbn; lia)) as L3.
  destruct (dumpBytes uint32_t v buf) as [|c0 [|c1 [|c2 [|c3 rest]]]];
    cbn [length] in Hlen'; try lia.
  unfold load in *. cbn [nth Z.of_nat Pos.of_succ_nat Pos.succ Z.mul Pos.mul]
    in *.
  exists rest. rewrite L0, L1, L2, L3. rewrite Z.div_1_r. reflexivity.
Qed.

(** X6.  The primary template [ParseBytes<uint32_t>::parse_bytes] reads
    back every u32 that the integral [dumpBytes] wrote, whatever follows
    it in the buffer; in particular each bus speed dumped as a u32 parses
    to itself. *)
Theorem parse_bytes_dumpBytes (v : Z) (buf : buffer) :
  0 <= v < 2 ^ 32 -> (4 <= length buf)%nat ->
  parse_bytes uint32_t (dumpBytes uint32_t v buf) = v
  /\ (forall s, v = BusSpeed_value s ->
       parse_bytes_BusSpeed (dumpBytes uint32_t v buf) = ret s).
Proof.
  intros Hv Hlen.
  destruct (dumpBytes_uint32_t_bytes v buf Hlen) as [rest Hd].
  assert (Hparse : parse_bytes uint32_t (dumpBytes uint32_t v buf) = v).
  { rewrite Hd. rewrite parse_bytes_uint32_t;
      try (unfold is_byte; change 256 with (2 ^ 8); apply Z.mod_pos_bound; lia).
    unfold le_u32. change (2 ^ 8) with 256. change (2 ^ 16) with 65536.
    change (2 ^ 24) with 16777216. change (2 ^ 32) with 4294967296 in Hv.
    Z.to_euclidean_division_equations. lia. }
  split; [exact Hparse|].
  intros s ->. unfold parse_bytes_BusSpeed. rewrite Hparse.
  destruct s; reflexivity.
Qed.

Lemma parse_bytes_dumpBytes_witness :
  parse_bytes uint32_t (dumpBytes uint32_t 0x10 [9; 9; 9; 9; 9]) = 0x10
  /\ (forall s, 0x10 = BusSpeed_value s ->
       parse_bytes_BusSpeed (dumpBytes uint32_t 0x10 [9; 9; 9; 9; 9]) = ret s).
Proof.
  apply (parse_bytes_dumpBytes 0x10 [9; 9; 9; 9; 9]); [lia | cbn; lia].
Defined.

End ParseBytesClassFacts.

(** ** Dumps of byte sequences into a slot of a larger buffer *)

Module SlotFacts.
Import RegisterMap RegisterMapMore.

(** Copying all of [src] over the start of a buffer that has room. *)
Lemma memcpy_all (dst src : buffer) :
  (length src <= length dst)%nat ->
  memcpy dst src (length src) = src ++ drop (length src) dst
  /\ length (memcpy dst src (length src)) = length dst.
Proof.
  intros Hfit. unfold memcpy. rewrite firstn_all. split; [reflexivity|].
  rewrite length_app, length_drop. lia.
Qed.

(** X7.  The device configuration dump into a slot of [W] bytes at the
    start of a buffer: data longer than the slot make it throw
    "too large device configuration" with the buffer untouched; otherwise
    the data replace the first bytes and every other byte of the buffer,
    inside and past the slot, stays as it was (no terminator is
    written). *)
Theorem dumpBytes_DeviceConfiguration_spec (config : DeviceConfiguration)
  (buf : buffer) (W : nat) :
  (W <= length buf)%nat ->
  ((W < length (getData config))%nat ->
     dumpBytes_DeviceConfiguration config buf W
     = (throw (runtime_error "too large device configuration"), buf))
  /\ ((length (getData config) <= W)%nat ->
      exists buf',
        dumpBytes_DeviceConfiguration config buf W = (ret tt, buf')
        /\ length buf' = length buf
        /\ take (length (getData config)) buf' = getData config
        /\ drop (length (getData config)) buf'
           = drop (length (getData config)) buf).
Proof.
  intros HW. unfold dumpBytes_DeviceConfiguration. cbv zeta. split.
  - intros Hbig.
    destruct (Nat.ltb_spec W (length (getData config))); [reflexivity | lia].
  - intros Hfit.
    destruct (Nat.ltb_spec W (length (getData config))); [lia|].
    destruct (memcpy_all buf (getData config)) as [Heq Hlen]; [lia|].
    eexists. split; [reflexivity|]. rewrite Heq.
    split; [rewrite <- Heq; exact Hlen|].
    split; [apply take_app_length | apply drop_app_length].
Qed.

Lemma dumpBytes_DeviceConfiguration_spec_witness :
  ((2 < length [1; 0; 0; 0])%nat ->
     dumpBytes_DeviceConfiguration (MkDeviceConfiguration [1; 0; 0; 0])
       [9; 9; 9] 2
     = (throw (runtime_error "too large device configuration"), [9; 9; 9]))
  /\ ((length [1; 0; 0; 0] <= 2)%nat ->
      exists buf',
        dumpBytes_DeviceConfiguration (MkDeviceConfiguration [1; 0; 0; 0])
          [9; 9; 9] 2 = (ret tt, buf')
        /\ length buf' = length [9; 9; 9]
        /\ take (length [1; 0; 0; 0]) buf' = [1; 0; 0; 0]
        /\ drop (length [1; 0; 0; 0]) buf' = drop (length [1; 0; 0; 0]) [9; 9; 9]).
Proof.
  apply (dumpBytes_DeviceConfiguration_spec
           (MkDeviceConfiguration [1; 0; 0; 0]) [9; 9; 9] 2).
  cbn. lia.
Defined.

(** X8.  The string dump into a slot of [W] bytes at the start of a
    larger buffer never writes at or past offset [W] and never changes the
    buffer's length; it succeeds exactly when the string fits; and then
    the only byte it changes past the text is the one right after it. *)
Theorem dumpBytes_string_in_slot (s : std_string) (buf : buffer) (W : nat) :
  (W <= length buf)%nat ->
  let outcome := fst (dumpBytes_string s buf W) in
  let buf' := snd (dumpBytes_string s buf W) in
  length buf' = length buf
  /\ drop W buf' = drop W buf
  /\ (outcome = ret tt <-> (length s <= W)%nat)
  /\ ((W < length s)%nat -> buf' = buf)
  /\ ((length s <= W)%nat ->
      take (length s) buf' = s
      /\ drop (S (length s)) buf' = drop (S (length s)) buf).
Proof.
  intros HW. cbv zeta. unfold dumpBytes_string.
  destruct (Nat.ltb_spec W (length s)) as [Hbig|Hfit]; cbn [fst snd].
  - repeat split; try reflexivity; try lia. intros Heq. discriminate Heq.
  - destruct (memcpy_all buf s) as [Heq Hlen]; [lia|].
    destruct (Nat.ltb_spec (length s) W) as [Hlt|Hge].
    + rewrite Heq. rewrite insert_app_r_alt by lia. rewrite Nat.sub_diag.
      destruct (drop (length s) buf) as [|b rest] eqn:E.
      * apply (f_equal length) in E. rewrite length_drop in E.
        cbn in E. lia.
      * cbn [list_insert insert].
        assert (Hbuf : buf = take (length s) buf ++ b :: rest)
          by (rewrite <- E; symmetry; apply take_drop).
        assert (Htl : length (take (length s) buf) = length s)
          by (rewrite length_take; lia).
        assert (Hrest : drop (S (length s)) buf = rest).
        { replace (S (length s)) with (length s + 1)%nat by lia.
          rewrite <- drop_drop, E. reflexivity. }
        split.
        { rewrite <- Hlen, Heq, !length_app. reflexivity. }
        split.
        { replace W with (length s + (W - length s))%nat by lia.
          rewrite <- !drop_drop, drop_app_length, E.
          destruct (W - length s)%nat as [|k] eqn:Ek; [lia|]. reflexivity. }
        split; [split; [lia | reflexivity]|].
        split; [lia|]. intros _. split; [apply take_app_length|].
        replace (S (length s)) with (length s + 1)%nat at 1 by lia.
        rewrite <- drop_drop, drop_app_length, Hrest. reflexivity.
    + assert (HWs : W = length s) by lia. subst W. rewrite Heq.
      split; [rewrite <- Heq; exact Hlen|].
      split; [apply drop_app_length|].
      split; [split; [lia | reflexivity]|].
      split; [lia|]. intros _. split; [apply take_app_length|].
      replace (S (length s)) with (length s + 1)%nat by lia.
      rewrite <- !drop_drop, drop_app_length. reflexivity.
Qed.

Lemma dumpBytes_string_in_slot_witness :
  let outcome := fst (dumpBytes_string [83; 78] [9; 9; 9; 9; 9; 9] 4) in
  let buf' := snd (dumpBytes_string [83; 78] [9; 9; 9; 9; 9; 9] 4) in
  length buf' = length [9; 9; 9; 9; 9; 9]
  /\ drop 4 buf' = drop 4 [9; 9; 9; 9; 9; 9]
  /\ (outcome = ret tt <-> (length [83; 78] <= 4)%nat)
  /\ ((4 < length [83; 78])%nat -> buf' = [9; 9; 9; 9; 9; 9])
  /\ ((length [83; 78] <= 4)%nat ->
      take (length [83; 78]) buf' = [83; 78]
      /\ drop (S (length [83; 78])) buf'
         = drop (S (length [83; 78])) [9; 9; 9; 9; 9; 9]).
Proof.
  apply (dumpBytes_string_in_slot [83; 78] [9; 9; 9; 9; 9; 9] 4).
  cbn. lia.
Defined.

End SlotFacts.

(** ** The conversion to StreamError, and the cameras of the enumeration *)

Module U3VMoreFacts.
Import U3V U3VStream U3VFacts.

(** X9.  The conversion to [StreamError] always returns, always with the
    [Io] kind and the text of the error it converts, whatever the error
    type; it agrees with the conversion to [ControlError] on kind and text
    except for [InvalidDevice] errors, which the latter gives their own
    kind and the fixed text "invalid device". *)
Theorem convertToStreamError_Io (err : Error) :
  convertToStreamError err
  = Some (MkStreamError StreamErrorType.Io (what err))
  /\ (type err <> InvalidDevice ->
      convertToControlError err
      = Some (MkControlError ControlErrorType.Io (what err)))
  /\ (type err = InvalidDevice ->
      convertToControlError err
      = Some (MkControlError ControlErrorType.InvalidDevice "invalid device")).
Proof.
  split.
  - unfold convertToStreamError. destruct (type err); reflexivity.
  - rewrite convertToControlError_cases.
    destruct (type err); split; intros Ht; try reflexivity;
      try discriminate Ht; contradiction.
Qed.

Section Enumerate.
Context `{Handles}.

(** X10.  Every camera the enumeration returns has a valid control handle
    and a valid stream handle, no context, and is the camera of one of the
    enumerated devices, whose three name strings it carries; there are
    never more cameras than devices; and enumerating two device lists one
    after the other gives the cameras of the first followed by those of
    the second. *)
Theorem enumerateCameras_valid (devices more : list DeviceInfo) :
  Forall (fun camera =>
            ControlHandle_isValid (ctrl camera) = true
            /\ StreamHandle_isValid (strm camera) = true
            /\ ctxt camera = None
            /\ exists dev,
                In dev devices
                /\ camera = camera_of dev
                /\ info camera
                   = MkCameraInfo (vendorName dev) (modelName dev)
                       (serialNumber dev))
    (enumerateCameras devices)
  /\ (length (enumerateCameras devices) <= length devices)%nat
  /\ enumerateCameras (devices ++ more)
     = enumerateCameras devices ++ enumerateCameras more.
Proof.
  assert (E : forall ds, enumerateCameras ds
                         = map camera_of (List.filter usable ds)).
  { intros ds. unfold enumerateCameras. rewrite enumerateCameras_loop.
    reflexivity. }
  rewrite !E. split; [|split].
  - apply List.Forall_forall. intros camera Hin.
    apply in_map_iff in Hin. destruct Hin as (dev & <- & Hin).
    apply filter_In in Hin. destruct Hin as [Hin Huse].
    unfold usable in Huse. apply andb_prop in Huse. destruct Huse as [Hc Hs].
    cbn [camera_of ctrl strm ctxt info].
    repeat split; auto. exists dev. auto.
  - rewrite length_map. apply List.filter_length_le.
  - rewrite List.filter_app, map_app. reflexivity.
Qed.

End Enumerate.

End U3VMoreFacts.

(** ** Leader, payload and trailer reads *)

Module StreamMoreFacts.
Import Config Stream StreamMore IntegerTypesFacts StreamFacts.

Section Reads.
Context `{AsyncPool}.

(** X11.  [read_leader] and [read_trailer] throw "Buffer is too small
    ..." exactly when the buffer is smaller than the leader (trailer)
    size, and then submit nothing; otherwise they submit exactly one read,
    of that size at the start of the buffer and inside it (also when the
    size is zero), and a submission that throws ends the call with
    [StreamError] "Failed to read leader: ..." ("... trailer: ..."), the
    pool left as it was. *)
Theorem read_leader_trailer_spec (pool : list read_request)
  (params : StreamParams) (buf_size : Z) :
  (read_leader pool params buf_size
   = (throw (runtime_error "Buffer is too small to read the leader"), pool)
   <-> buf_size < leader_size params)
  /\ (leader_size params <= buf_size ->
      within buf_size (MkRead 0 (leader_size params))
      /\ (submit_throws pool (MkRead 0 (leader_size params)) = None ->
          read_leader pool params buf_size
          = (ret tt, pool ++ [MkRead 0 (leader_size params)]))
      /\ (forall w,
            submit_throws pool (MkRead 0 (leader_size params)) = Some w ->
            read_leader pool params buf_size
            = (throw (StreamError ("Failed to read leader: " ++ w)), pool)))
  /\ (read_trailer pool params buf_size
      = (throw (runtime_error "Buffer is too small to read the trailer"), pool)
      <-> buf_size < trailer_size params)
  /\ (trailer_size params <= buf_size ->
      within buf_size (MkRead 0 (trailer_size params))
      /\ (submit_throws pool (MkRead 0 (trailer_size params)) = None ->
          read_trailer pool params buf_size
          = (ret tt, pool ++ [MkRead 0 (trailer_size params)]))
      /\ (forall w,
            submit_throws pool (MkRead 0 (trailer_size params)) = Some w ->
            read_trailer pool params buf_size
            = (throw (StreamError ("Failed to read trailer: " ++ w)), pool))).
Proof.
  unfold read_leader, read_trailer, submit, within. cbv zeta.
  cbn [offset size].
  destruct (Z.ltb_spec buf_size (leader_size params)) as [Hl|Hl],
    (Z.ltb_spec buf_size (trailer_size params)) as [Ht|Ht];
    (repeat split; try tauto; try lia);
    try (intros Hnone; rewrite Hnone; reflexivity);
    try (intros w Hw; rewrite Hw; reflexivity);
    try (destruct (submit_throws pool _); intros Heq; discriminate Heq).
Qed.

(** The sizes of the reads that the loop submits. *)
Lemma submit_payloads_sizes (n : nat) (p : Z) (pool : list read_request)
  (cursor : Z) :
  exists submitted rest,
    snd (submit_payloads n p pool cursor) = pool ++ submitted
    /\ repeat p n = map size submitted ++ rest
    /\ (forall cursor', fst (submit_payloads n p pool cursor) = inr cursor' ->
        rest = []).
Proof.
  revert pool cursor. induction n as [|n IH]; intros pool cursor.
  - exists [], []. cbn. rewrite app_nil_r. auto.
  - cbn [submit_payloads].
    destruct (submit_cases pool cursor p) as [(w & -> & _)|(-> & _)];
      unfold ret, throw; cbn iota beta.
    + exists [], (repeat p (S n)). cbn [fst snd map app].
      rewrite app_nil_r. repeat split. intros c Hc. discriminate Hc.
    + destruct (IH (pool ++ [MkRead cursor p]) (size_add cursor p))
        as (sub & rest & Hsnd & Hrep & Hdone).
      exists (MkRead cursor p :: sub), rest.
      rewrite Hsnd, <- app_assoc. split; [reflexivity|].
      split; [cbn [repeat map size app]; rewrite Hrep; reflexivity|].
      exact Hdone.
Qed.

(** X12.  Whatever the parameters, wrapping sums included: [read_payload]
    only adds reads to the pool; a call that throws "Buffer is too small
    ..." adds none; a call that returns has submitted [payload_count]
    reads of [payload_size] bytes, then one read for each final transfer
    whose size is not zero, in that order; a call that fails on a
    submission leaves the reads submitted before it in the pool. *)
Theorem read_payload_sizes (pool : list read_request)
  (params : StreamParams) (buf_size : Z) :
  let outcome := read_payload pool params buf_size in
  let sizes :=
    repeat (payload_size params) (Z.to_nat (payload_count params))
    ++ List.filter (fun f => negb (f =? 0))
         [payload_final1_size params; payload_final2_size params] in
  exists submitted rest,
    snd outcome = pool ++ submitted
    /\ sizes = map size submitted ++ rest
    /\ (fst outcome
        = throw (runtime_error "Buffer is too small to read the payload") ->
        submitted = [])
    /\ (fst outcome = ret tt -> rest = []).
Proof.
  cbv zeta. unfold read_payload.
  destruct (_ <? _).
  { exists [], (repeat (payload_size params) (Z.to_nat (payload_count params))
                ++ List.filter (fun f => negb (f =? 0))
                     [payload_final1_size params; payload_final2_size params]).
    cbn [fst snd map app]. rewrite app_nil_r. repeat split.
    intros Heq. discriminate Heq. }
  unfold read_payload_try.
  destruct (submit_payloads_sizes (Z.to_nat (payload_count params))
              (payload_size params) pool 0)
    as (sub0 & rest0 & Hsnd0 & Hrep0 & Hdone0).
  destruct (submit_payloads _ _ _ _) as [[e|cursor] pool0];
    cbn [fst snd] in *; subst pool0.
  { exists sub0, (rest0 ++ List.filter (fun f => negb (f =? 0))
                     [payload_final1_size params; payload_final2_size params]).
    rewrite Hrep0, <- app_assoc. repeat split; intros Heq; discriminate Heq. }
  rewrite (Hdone0 cursor eq_refl), app_nil_r in Hrep0. rewrite Hrep0.
  cbn [List.filter].
  set (f1 := payload_final1_size params). set (f2 := payload_final2_size params).
  destruct (negb (f1 =? 0)) eqn:E1.
  - destruct (submit_cases (pool ++ sub0) cursor f1) as [(w & -> & _)|(-> & _)];
      unfold ret, throw; cbn iota beta.
    + exists sub0, (f1 :: if negb (f2 =? 0) then [f2] else []).
      cbn [fst snd]. repeat split; intros Heq; discriminate Heq.
    + destruct (negb (f2 =? 0)) eqn:E2.
      * destruct (submit_cases ((pool ++ sub0) ++ [MkRead cursor f1])
                    (size_add cursor f1) f2) as [(w & -> & _)|(-> & _)];
          unfold ret, throw; cbn iota beta; cbn [fst snd].
        -- exists (sub0 ++ [MkRead cursor f1]), [f2].
           rewrite <- app_assoc, map_app, <- app_assoc.
           repeat split; intros Heq; discriminate Heq.
        -- exists (sub0 ++ [MkRead cursor f1; MkRead (size_add cursor f1) f2]),
             [].
           rewrite <- !app_assoc, map_app, app_nil_r. cbn [app].
           repeat split. intros Heq. discriminate Heq.
      * cbn [fst snd]. exists (sub0 ++ [MkRead cursor f1]), [].
        rewrite <- app_assoc, map_app, app_nil_r.
        repeat split. intros Heq. discriminate Heq.
  - unfold ret; cbn iota beta. destruct (negb (f2 =? 0)) eqn:E2.
    + destruct (submit_cases (pool ++ sub0) cursor f2) as [(w & -> & _)|(-> & _)];
        unfold ret, throw; cbn iota beta; cbn [fst snd].
      * exists sub0, [f2]. repeat split; intros Heq; discriminate Heq.
      * exists (sub0 ++ [MkRead cursor f2]), [].
        rewrite <- app_assoc, map_app, app_nil_r.
        repeat split. intros Heq. discriminate Heq.
    + cbn [fst snd]. exists sub0, []. rewrite !app_nil_r.
      repeat split. intros Heq. discriminate Heq.
Qed.

End Reads.

(** X13.  For stream parameters whose payload size, count and final
    sizes are values of 32-bit registers, [maximum_payload_size()] is the
    exact sum payload_size * payload_count + final1 + final2: it cannot
    wrap around, the largest possible sum being 2^64 - 1, which the
    largest register values reach. *)
Theorem maximum_payload_size_u32 (params : StreamParams) :
  representable uint32_t (payload_size params) ->
  representable uint32_t (payload_count params) ->
  representable uint32_t (payload_final1_size params) ->
  representable uint32_t (payload_final2_size params) ->
  maximum_payload_size params
  = payload_size params * payload_count params
    + payload_final1_size params + payload_final2_size params
  /\ maximum_payload_size params <= 2 ^ 64 - 1
  /\ maximum_payload_size
       (MkStreamParams (leader_size params) (trailer_size params)
          (2 ^ 32 - 1) (2 ^ 32 - 1) (2 ^ 32 - 1) (2 ^ 32 - 1)
          (timeout params))
     = 2 ^ 64 - 1.
Proof.
  intros Hp Hc H1 H2.
  pose proof (u32_params_no_wrap params Hp Hc H1 H2) as Hsum.
  unfold representable in *. cbn [is_signed uint32_t] in *.
  change (bits uint32_t) with 32 in *.
  assert (Hpc : 0 <= payload_size params * payload_count params) by nia.
  assert (Hexact : maximum_payload_size params
                   = payload_size params * payload_count params
                     + payload_final1_size params
                     + payload_final2_size params).
  { unfold maximum_payload_size.
    rewrite size_mul_small by lia.
    rewrite (size_add_small (_ * _)) by lia. apply size_add_small. lia. }
  split; [exact Hexact|]. split; [lia | reflexivity].
Qed.

Lemma maximum_payload_size_u32_witness :
  let params := MkStreamParams 52 32 65536 4 1024 0 500 in
  maximum_payload_size params = 65536 * 4 + 1024 + 0
  /\ maximum_payload_size params <= 2 ^ 64 - 1
  /\ maximum_payload_size
       (MkStreamParams 52 32 (2 ^ 32 - 1) (2 ^ 32 - 1) (2 ^ 32 - 1)
          (2 ^ 32 - 1) 500)
     = 2 ^ 64 - 1.
Proof.
  apply (maximum_payload_size_u32 (MkStreamParams 52 32 65536 4 1024 0 500));
    vm_compute; split; congruence.
Defined.

End StreamMoreFacts.

(** ** Stream parameters of a device with SIRM *)

Module FromControlMoreFacts.
Import Stream Control.

Section FromControl.
Context {S : Type} `{DeviceControl S} `{RegisterAccess S}.

(** A sequence returns only if its first part returned. *)
Lemma bind_ret_inv {A B : Type} (m : comp S A) (f : A -> comp S B)
  (s s' : S) (b : B) :
  bind m f s = Some (ret b, s') ->
  exists a s1, m s = Some (ret a, s1) /\ f a s1 = Some (ret b, s').
Proof.
  unfold bind. destruct (m s) as [[[e|a] s1]|]; try discriminate.
  intros Hf. exists a, s1. auto.
Qed.

(** What the first part throws, the sequence throws. *)
Lemma bind_throw {A B : Type} (m : comp S A) (f : A -> comp S B)
  (s s' : S) (e : exception) :
  m s = Some (throw e, s') -> bind m f s = Some (throw e, s').
Proof. unfold bind. intros ->. reflexivity. Qed.

(** X14.  [from_control] returns stream parameters only for a device
    whose SIRM is present, and then each field is what the corresponding
    register read returned, the reads being made in the order leader,
    trailer, payload size, payload count, final 1, final 2, response
    time, each on the state the previous one left; an exception thrown
    while resolving SBRM -> SIRM is passed on as it is, with no further
    read. *)
Theorem from_control_returns (ctrl : S) :
  (forall params ctrl',
      from_control ctrl = Some (ret params, ctrl') ->
      exists sirm c1 c2 c3 c4 c5 c6 c7,
        sbrm_sirm ctrl = Some (ret sirm, c1)
        /\ sirm_address sirm <> 0
        /\ maximum_leader_size sirm c1 = Some (ret (leader_size params), c2)
        /\ maximum_trailer_size sirm c2 = Some (ret (trailer_size params), c3)
        /\ payload_transfer_size sirm c3 = Some (ret (payload_size params), c4)
        /\ payload_transfer_count sirm c4
           = Some (ret (payload_count params), c5)
        /\ payload_final_transfer1_size sirm c5
           = Some (ret (payload_final1_size params), c6)
        /\ payload_final_transfer2_size sirm c6
           = Some (ret (payload_final2_size params), c7)
        /\ maximum_device_response_time c7
           = Some (ret (timeout params), ctrl'))
  /\ (forall e c, sbrm_sirm ctrl = Some (throw e, c) ->
                  from_control ctrl = Some (throw e, c))
  /\ (sbrm_sirm ctrl = None -> from_control ctrl = None).
Proof.
  split; [|split].
  - intros params ctrl' Hret. unfold from_control in Hret.
    apply bind_ret_inv in Hret. destruct Hret as (sirm & c1 & Hsirm & Hret).
    unfold Sirm_absent in Hret.
    destruct (Z.eqb_spec (sirm_address sirm) 0) as [_|Hnz];
      [discriminate Hret|].
    apply bind_ret_inv in Hret. destruct Hret as (l & c2 & Hl & Hret).
    apply bind_ret_inv in Hret. destruct Hret as (t & c3 & Ht & Hret).
    apply bind_ret_inv in Hret. destruct Hret as (p & c4 & Hp & Hret).
    apply bind_ret_inv in Hret. destruct Hret as (n & c5 & Hn & Hret).
    apply bind_ret_inv in Hret. destruct Hret as (f1 & c6 & Hf1 & Hret).
    apply bind_ret_inv in Hret. destruct Hret as (f2 & c7 & Hf2 & Hret).
    apply bind_ret_inv in Hret. destruct Hret as (d & c8 & Hd & Hret).
    unfold pure in Hret. injection Hret as <- <-.
    exists sirm, c1, c2, c3, c4, c5, c6, c7.
    cbn [leader_size trailer_size payload_size payload_count
           payload_final1_size payload_final2_size timeout].
    repeat split; assumption.
  - intros e c He. unfold from_control. apply bind_throw. exact He.
  - intros Hnone. unfold from_control, bind. rewrite Hnone. reflexivity.
Qed.

End FromControl.

End FromControlMoreFacts.

(** ** Sequences of calls through the guarded wrapper *)

Module SharedMoreFacts.
Import Control ControlMore ModelDevice SharedFacts.

Section Shared.
Context {ControlHandle : Type} `{DeviceControl ControlHandle}.

(** One call through a wrapper whose mutex is free, on a store that holds
    the handle. *)
Lemma invoke_shared_step {R : Type} (op : Op R)
  (store : gmap loc ControlHandle) (l : loc) (h : ControlHandle) :
  store !! l = Some h ->
  invoke (S := gmap loc ControlHandle * SharedControlHandle) op
    (store, MkShared l false)
  = match invoke op h with
    | None => None
    | Some (r, h') => Some (r, (<[ l := h' ]> store, MkShared l false))
    end.
Proof.
  intros Hl. rewrite invoke_shared, lock_guard_unlocked. unfold deref.
  rewrite Hl. destruct (invoke op h) as [[r h']|]; reflexivity.
Qed.

(** X15.  Any sequence of calls made through a [SharedControlHandle]
    (mutex free at the start) gives the same outcomes, in the same order,
    as the same calls made directly on the wrapped [ControlHandle]; the
    wrapped handle ends in the same state, the mutex is free again, and no
    other object of the store is touched. *)
Theorem run_calls_shared (calls : list call)
  (store : gmap loc ControlHandle) (s : SharedControlHandle)
  (h : ControlHandle) :
  m_mutex s = false -> store !! m_handle s = Some h ->
  run_calls (S := gmap loc ControlHandle * SharedControlHandle) calls
    (store, s)
  = match run_calls calls h with
    | None => None
    | Some (outcomes, h') =>
        Some (outcomes, (<[ m_handle s := h' ]> store, s))
    end
  /\ (forall outcomes store' s',
        run_calls (S := gmap loc ControlHandle * SharedControlHandle) calls
          (store, s) = Some (outcomes, (store', s')) ->
        forall l, l <> m_handle s -> store' !! l = store !! l).
Proof.
  destruct s as [l m]. cbn [m_mutex m_handle]. intros -> Hl.
  assert (Hrun : forall calls store h,
             store !! l = Some h ->
             run_calls (S := gmap loc ControlHandle * SharedControlHandle)
               calls (store, MkShared l false)
             = match run_calls calls h with
               | None => None
               | Some (outcomes, h') =>
                   Some (outcomes, (<[ l := h' ]> store, MkShared l false))
               end).
  { clear. intros calls. induction calls as [|c calls IH]; intros store h Hl.
    - cbn [run_calls]. rewrite insert_id by exact Hl. reflexivity.
    - cbn [run_calls]. rewrite (invoke_shared_step _ _ _ _ Hl).
      destruct (invoke (call_op c) h) as [[r h1]|]; [|reflexivity].
      rewrite (IH (<[ l := h1 ]> store) h1) by apply lookup_insert_eq.
      destruct (run_calls calls h1) as [[rs h2]|]; [|reflexivity].
      rewrite insert_insert_eq. reflexivity. }
  split; [apply Hrun; exact Hl|].
  intros outcomes store' s' Hcalls l' Hne.
  rewrite (Hrun _ _ _ Hl) in Hcalls.
  destruct (run_calls calls h) as [[rs h']|]; [|discriminate Hcalls].
  injection Hcalls as _ <- _. apply lookup_insert_ne. congruence.
Qed.

(** X16.  Two wrappers of the same [ControlHandle] act on one object: a
    call through the second one finds the handle in the state that the
    call through the first one left, and returns what that call returns
    on this state. *)
Theorem two_wrappers_one_handle {R1 R2 : Type} (op1 : Op R1) (op2 : Op R2)
  (store : gmap loc ControlHandle) (s1 s2 : SharedControlHandle)
  (h h1 h2 : ControlHandle) (r1 : result R1) (r2 : result R2) :
  m_handle s1 = m_handle s2 ->
  m_mutex s1 = false -> m_mutex s2 = false ->
  store !! m_handle s1 = Some h ->
  invoke op1 h = Some (r1, h1) ->
  invoke op2 h1 = Some (r2, h2) ->
  invoke (S := gmap loc ControlHandle * SharedControlHandle) op1 (store, s1)
  = Some (r1, (<[ m_handle s1 := h1 ]> store, s1))
  /\ invoke (S := gmap loc ControlHandle * SharedControlHandle) op2
       (<[ m_handle s1 := h1 ]> store, s2)
     = Some (r2, (<[ m_handle s1 := h2 ]> store, s2)).
Proof.
  destruct s1 as [l m1], s2 as [l2 m2]. cbn [m_handle m_mutex].
  intros <- -> -> Hl Hop1 Hop2. split.
  - rewrite (invoke_shared_step _ _ _ _ Hl), Hop1. reflexivity.
  - rewrite (invoke_shared_step op2 (<[ l := h1 ]> store) l h1)
      by apply lookup_insert_eq.
    rewrite Hop2, insert_insert_eq. reflexivity.
Qed.

End Shared.

Lemma run_calls_shared_witness :
  let calls := [MkCall _ (SetRetryCount 5); MkCall _ Close;
                MkCall _ Genapi; MkCall _ RetryCount] in
  let store : gmap loc handle :=
    {[ 1%positive := with_sirm; 2%positive := no_sirm ]} in
  let s := SharedControlHandle_ctor 1 in
  run_calls (S := gmap loc handle * SharedControlHandle) calls (store, s)
  = match run_calls calls with_sirm with
    | None => None
    | Some (outcomes, h') =>
        Some (outcomes, (<[ m_handle s := h' ]> store, s))
    end
  /\ (forall outcomes store' s',
        run_calls (S := gmap loc handle * SharedControlHandle) calls
          (store, s) = Some (outcomes, (store', s')) ->
        forall l, l <> m_handle s -> store' !! l = store !! l).
Proof.
  apply (run_calls_shared
           [MkCall _ (SetRetryCount 5); MkCall _ Close;
            MkCall _ Genapi; MkCall _ RetryCount]
           {[ 1%positive := with_sirm; 2%positive := no_sirm ]}
           (SharedControlHandle_ctor 1) with_sirm).
  - reflexivity.
  - reflexivity.
Defined.

Lemma two_wrappers_one_handle_witness :
  let store : gmap loc handle := {[ 1%positive := with_sirm ]} in
  invoke (S := gmap loc handle * SharedControlHandle) (SetRetryCount 5)
    (store, MkShared 1 false)
  = Some (ret tt, (<[ 1%positive := set_retry 5 with_sirm ]> store,
                   MkShared 1 false))
  /\ invoke (S := gmap loc handle * SharedControlHandle) RetryCount
       (<[ 1%positive := set_retry 5 with_sirm ]> store, MkShared 1 false)
     = Some (ret 5, (<[ 1%positive := set_retry 5 with_sirm ]> store,
                     MkShared 1 false)).
Proof.
  apply (two_wrappers_one_handle (SetRetryCount 5) RetryCount
           {[ 1%positive := with_sirm ]} (MkShared 1 false) (MkShared 1 false)
           with_sirm (set_retry 5 with_sirm) (set_retry 5 with_sirm)
           (ret tt) (ret 5));
    reflexivity.
Defined.

End SharedMoreFacts.

(** ** The Camera class *)

Module CameraClassFacts.
Import CameraClass.

(** X17.  After any sequence of setter calls on a [Camera], each getter
    returns the argument of the last call of its own setter, or what the
    object held before when that setter was not called: a setter never
    changes the other two members. *)
Theorem call_setters_get (c : Camera) (calls : list setter) :
  getVendorName (call_setters c calls)
  = last_vendorName (getVendorName c) calls
  /\ getModelName (call_setters c calls)
     = last_modelName (getModelName c) calls
  /\ getSerialNumber (call_setters c calls)
     = last_serialNumber (getSerialNumber c) calls
  /\ (forall v m n,
        getVendorName (call_setters c (calls ++ [SetVendorName v])) = v
        /\ getModelName (call_setters c (calls ++ [SetModelName m])) = m
        /\ getSerialNumber (call_setters c (calls ++ [SetSerialNumber n])) = n
        /\ getVendorName
             (call_setters c (calls ++ [SetModelName m; SetSerialNumber n]))
           = getVendorName (call_setters c calls)).
Proof.
  unfold call_setters.
  assert (Hall : forall calls c,
             getVendorName (fold_left call_setter calls c)
             = last_vendorName (getVendorName c) calls
             /\ getModelName (fold_left call_setter calls c)
                = last_modelName (getModelName c) calls
             /\ getSerialNumber (fold_left call_setter calls c)
                = last_serialNumber (getSerialNumber c) calls).
  { clear. intros calls. induction calls as [|s calls IH]; intros c.
    - repeat split.
    - cbn [fold_left]. destruct (IH (call_setter c s)) as (Hv & Hm & Hn).
      rewrite Hv, Hm, Hn. destruct s; repeat split. }
  destruct (Hall calls c) as (Hv & Hm & Hn).
  split; [exact Hv|]. split; [exact Hm|]. split; [exact Hn|].
  intros v m n. rewrite !fold_left_app. repeat split.
Qed.

End CameraClassFacts.

(** ** The sample program *)

Module MainFacts.
Import Control Main.

Section Main.
Context {C : Type} `{CameraOps C}.

(** A call on the last camera of a vector. *)
Lemma on_back_snoc {R : Type} (f : comp C R) (front : list C) (camera : C)
  (out : list string) :
  on_back f (MkWorld (front ++ [camera]) out)
  = match f camera with
    | None => None
    | Some (r, camera') => Some (r, MkWorld (front ++ [camera']) out)
    end.
Proof.
  unfold on_back. cbn [cameras cout].
  rewrite last_snoc, removelast_last. reflexivity.
Qed.

Lemma keeps_front_on_back {R : Type} (f : comp C R) : keeps_front (on_back f).
Proof.
  intros front camera out r w'. rewrite on_back_snoc.
  destruct (f camera) as [[r0 camera']|]; [|discriminate].
  intros [= <- <-]. exists camera', []. rewrite app_nil_r. reflexivity.
Qed.

Lemma keeps_front_print (s : string) : keeps_front (C := C) (print s).
Proof.
  intros front camera out r w'. unfold print. cbn [cameras cout].
  intros [= <- <-]. exists camera, [s]. reflexivity.
Qed.

Lemma keeps_front_pure {R : Type} (r : R) : keeps_front (C := C) (pure r).
Proof.
  intros front camera out r0 w'. unfold pure.
  intros [= <- <-]. exists camera, []. rewrite app_nil_r. reflexivity.
Qed.

Lemma keeps_front_bind {A B : Type} (m : comp (@world C) A)
  (f : A -> comp (@world C) B) :
  keeps_front m -> (forall a, keeps_front (f a)) -> keeps_front (bind m f).
Proof.
  intros Hm Hf front camera out r w'. unfold bind.
  destruct (m (MkWorld (front ++ [camera]) out)) as [[[e|a] w1]|] eqn:E;
    [| |discriminate].
  - intros [= <- <-]. exact (Hm _ _ _ _ _ E).
  - destruct (Hm _ _ _ _ _ E) as (c1 & out1 & ->). intros Hfa.
    destruct (Hf a _ _ _ _ _ Hfa) as (c2 & out2 & ->).
    exists c2, (out1 ++ out2). rewrite app_assoc. reflexivity.
Qed.

(** [main] on a vector that is not empty is its sequence of calls on the
    last camera. *)
Lemma main_not_empty (w : @world C) :
  cameras w <> [] ->
  main w
  = (_ <- on_back camera_open ;;
     abrm <- on_back ctrl_abrm ;;
     serial <- on_back (serial_number abrm) ;;
     _ <- print serial ;;
     capability <- on_back (device_capability abrm) ;;
     if is_user_defined_name_supported capability
     then
       name <- on_back (user_defined_name abrm) ;;
       _ <- print name ;;
       _ <- on_back (set_user_defined_name abrm "cameleon") ;;
       pure 0
     else pure 0) w.
Proof.
  intros Hw. unfold main. destruct (cameras w); [contradiction|].
  reflexivity.
Qed.

Lemma main_keeps_front : keeps_front (C := C) main.
Proof.
  intros front camera out r w'.
  rewrite main_not_empty by (cbn [cameras]; destruct front; discriminate).
  revert front camera out r w'.
  change (keeps_front
            (_ <- on_back camera_open ;;
             abrm <- on_back ctrl_abrm ;;
             serial <- on_back (serial_number abrm) ;;
             _ <- print serial ;;
             capability <- on_back (device_capability abrm) ;;
             if is_user_defined_name_supported capability
             then
               name <- on_back (user_defined_name abrm) ;;
               _ <- print name ;;
               _ <- on_back (set_user_defined_name abrm "cameleon") ;;
               pure 0
             else pure 0)).
  repeat (apply keeps_front_bind; [|intros ?]);
    try apply keeps_front_on_back; try apply keeps_front_print.
  destruct (is_user_defined_name_supported _).
  - repeat (apply keeps_front_bind; [|intros ?]);
      try apply keeps_front_on_back; try apply keeps_front_print;
      apply keeps_front_pure.
  - apply keeps_front_pure.
Qed.

(** X18.  [main] returns 0 without touching anything when the vector of
    cameras is empty; otherwise it works on the last camera only: the
    cameras before it are left as they are and [cout] only grows.  When
    the calls return and the device does not support a user-defined name,
    the serial number is the only line written and nothing is done after
    the capability is read; when it does support it, the current name is
    written as well and then "cameleon" is set as the new name. *)
Theorem main_spec (front : list C) (camera : C) (out : list string) :
  main (MkWorld [] out) = Some (ret 0, MkWorld [] out)
  /\ (forall r w',
        main (MkWorld (front ++ [camera]) out) = Some (r, w') ->
        exists camera' out',
          w' = MkWorld (front ++ [camera']) (out ++ out'))
  /\ (forall c1 c2 c3 c4 abrm serial capability,
        camera_open camera = Some (ret tt, c1) ->
        ctrl_abrm c1 = Some (ret abrm, c2) ->
        serial_number abrm c2 = Some (ret serial, c3) ->
        device_capability abrm c3 = Some (ret capability, c4) ->
        (is_user_defined_name_supported capability = false ->
         main (MkWorld (front ++ [camera]) out)
         = Some (ret 0, MkWorld (front ++ [c4]) (out ++ [serial])))
        /\ (forall c5 c6 name,
              is_user_defined_name_supported capability = true ->
              user_defined_name abrm c4 = Some (ret name, c5) ->
              set_user_defined_name abrm "cameleon" c5 = Some (ret tt, c6) ->
              main (MkWorld (front ++ [camera]) out)
              = Some (ret 0,
                      MkWorld (front ++ [c6]) (out ++ [serial; name])))).
Proof.
  pose proof main_not_empty as Hmain.
  assert (Hne : forall o, cameras (MkWorld (front ++ [camera]) o) <> []).
  { intros o. cbn [cameras]. destruct front; discriminate. }
  split; [reflexivity|]. split.
  - intros r w'. apply main_keeps_front.
  - intros c1 c2 c3 c4 abrm serial capability Hopen Habrm Hserial Hcap.
    rewrite (Hmain _ (Hne out)). unfold bind, print, pure, ret in *.
    rewrite on_back_snoc, Hopen. cbn iota beta.
    rewrite on_back_snoc, Habrm. cbn iota beta.
    rewrite on_back_snoc, Hserial. cbn iota beta. cbn [cameras cout].
    rewrite on_back_snoc, Hcap. cbn iota beta.
    split.
    + intros ->. reflexivity.
    + intros c5 c6 name -> Hname Hset.
      rewrite on_back_snoc, Hname. cbn iota beta. cbn [cameras cout].
      rewrite on_back_snoc, Hset. cbn iota beta.
      rewrite <- app_assoc. reflexivity.
Qed.

End Main.

Section MainOnEnumeration.
Context `{U3V.Handles} `{CameraOps U3V.Camera}.

(** X19.  Run on the vector that [enumerateCameras] returns, [main] does
    nothing and returns 0 when no device has both handles valid;
    otherwise the camera it opens and works on is the camera of the last
    device whose handles are both valid, and the cameras of the devices
    before it are left as the enumeration built them. *)
Theorem main_on_enumeration (devices : list U3V.DeviceInfo) :
  (List.filter U3V.usable devices = [] ->
   main (MkWorld (U3V.enumerateCameras devices) [])
   = Some (ret 0, MkWorld [] []))
  /\ (forall before dev after,
        devices = before ++ dev :: after ->
        U3V.usable dev = true ->
        List.filter U3V.usable after = [] ->
        U3V.enumerateCameras devices
        = U3V.enumerateCameras before ++ [U3V.camera_of dev]
        /\ forall r w',
            main (MkWorld (U3V.enumerateCameras devices) []) = Some (r, w') ->
            exists camera' out',
              w' = MkWorld (U3V.enumerateCameras before ++ [camera']) out').
Proof.
  assert (E : forall ds, U3V.enumerateCameras ds
                         = map U3V.camera_of (List.filter U3V.usable ds)).
  { intros ds. unfold U3V.enumerateCameras.
    rewrite U3VFacts.enumerateCameras_loop. reflexivity. }
  split.
  - intros Hnone. rewrite E, Hnone. reflexivity.
  - intros before dev after -> Huse Hafter.
    assert (Hsplit : U3V.enumerateCameras (before ++ dev :: after)
                     = U3V.enumerateCameras before ++ [U3V.camera_of dev]).
    { rewrite !E, List.filter_app. cbn [List.filter].
      rewrite Huse, Hafter, map_app. reflexivity. }
    split; [exact Hsplit|].
    intros r w' Hmain. rewrite Hsplit in Hmain.
    destruct (main_keeps_front _ _ _ _ _ Hmain) as (camera' & out' & ->).
    exists camera', out'. reflexivity.
Qed.

End MainOnEnumeration.

End MainFacts.

(** ** The further definitions on concrete inputs *)

Module MoreExamples.
Import RegisterMap RegisterMapMore Stream StreamMore Control Main ModelCamera.

Example dumpBytes_DeviceConfiguration_no_terminator :
  dumpBytes_DeviceConfiguration (MkDeviceConfiguration [1; 2]) [9; 9; 9; 9] 4
  = (ret tt, [1; 2; 9; 9])
  /\ dumpBytes_string [1; 2] [9; 9; 9; 9] 4 = (ret tt, [1; 2; 0; 9]).
Proof. split; reflexivity. Qed.

Example parse_bytes_uint64_t_sign_extends :
  parse_bytes uint64_t [0; 0; 0; 0x80; 0; 0; 0; 0] = 0xFFFFFFFF80000000
  /\ ParseBytes uint64_t [0; 0; 0; 0x80; 0; 0; 0; 0] = 0x80000000.
Proof. split; reflexivity. Qed.

Example convertToStreamError_InvalidDevice :
  U3VStream.convertToStreamError (U3V.MkError U3V.InvalidDevice "no endpoint")
  = Some (U3VStream.MkStreamError U3VStream.StreamErrorType.Io "no endpoint").
Proof. reflexivity. Qed.

Example read_leader_empty_leader :
  @read_leader reliable_pool [] (MkStreamParams 0 32 4 3 2 1 500) 0
  = (ret tt, [MkRead 0 0]).
Proof. reflexivity. Qed.

Example read_trailer_refused :
  @read_trailer (refusing_pool 0) [MkRead 0 52]
    (MkStreamParams 52 32 4 3 2 1 500) 64
  = (throw (StreamError "Failed to read trailer: transfer failed"),
     [MkRead 0 52]).
Proof. reflexivity. Qed.

Example main_last_camera :
  main (MkWorld [MkModelCamera false "SN1" true "first";
                 MkModelCamera false "SN2" true "second"] [])
  = Some (ret 0,
          MkWorld [MkModelCamera false "SN1" true "first";
                   MkModelCamera true "SN2" true "cameleon"]
            ["SN2"; "second"]%string).
Proof. reflexivity. Qed.

Example main_unsupported :
  main (MkWorld [MkModelCamera false "SN3" false "fixed"] [])
  = Some (ret 0,
          MkWorld [MkModelCamera true "SN3" false "fixed"] ["SN3"%string]).
Proof. reflexivity. Qed.

Example call_setters_example :
  CameraClass.getModelName
    (CameraClass.call_setters (CameraClass.Camera_ctor "v" "m" "s")
       [CameraClass.SetModelName "m1"; CameraClass.SetVendorName "v1";
        CameraClass.SetModelName "m2"])
  = "m2"%string.
Proof. reflexivity. Qed.

End MoreExamples.
